(** * safari-raindrop-tabgroups: normalisation, caching and aggregation

    A shallow embedding of the TypeScript sources of the repository:
    - [Safari]     the Safari reader, safari-tabgroups (the bookmarks queries)
    - [Raindrop]   the Raindrop normaliser, raindrop-tabgroups ([toTabGroups])
    - [Sync]       the cache refresher, sync-tabgroups ([syncSafari] and
                   [fetchAllRaindrops])
    - [Aggregator] the listing command, list-tabgroups (src/list.ts);
                   describe-tabgroup spawns and counts its sources the
                   same way

    JavaScript numbers that hold ids, exit codes and timestamps are
    integers of [Z], page numbers and counters are [nat]; strings are
    [string]; a value that may be [null], [undefined] or SQL NULL is an
    [option]; a [Map] is a [gmap]; the file system seen through node:fs is
    a [gmap] from path to file. *)

From stdpp Require Import base option list strings gmap sorting.
From Stdlib Require Import ZArith Lia Ascii.

Local Open Scope string_scope.
Local Open Scope list_scope.
Local Open Scope Z_scope.

(** ** The shared schema: profiles -> tabGroups -> tabs *)

Record Tab := mkTab { tab_title : string; tab_url : string }.
Record TabGroup := mkTabGroup { group_name : string; group_tabs : list Tab }.
Record Profile := mkProfile { profile_name : string; profile_tabGroups : list TabGroup }.

(** JavaScript truthiness of a value that is a string, [null] or
    [undefined]: only a non-empty string is truthy. *)
Definition truthy_str (s : option string) : bool :=
  match s with
  | Some s => negb (bool_decide (s = ""))
  | None => false
  end.

(** [s || "(untitled)"] *)
Definition or_untitled (s : option string) : string :=
  match s with
  | Some s => if bool_decide (s = "") then "(untitled)" else s
  | None => "(untitled)"
  end.

(** ** Raindrop normaliser (raindrop-tabgroups) *)

Module Raindrop.

(** [{ $id }], the reference object of [parent] and [collection]. *)
Record Ref := mkRef { ref_id : option Z }.

Record Collection := mkCollection {
  c_id : Z;                    (* _id *)
  c_title : string;
  c_parent : option Ref
}.

Record Item := mkItem {
  r_title : option string;
  r_link : option string;
  r_collection : option Ref
}.

Record RaindropCache := mkCache {
  collections : list Collection;
  raindrops : list Item
}.

(** [for (const c of collections) titleById.set(c._id, c.title)] *)
Definition titleById (cols : list Collection) : gmap Z string :=
  foldl (λ m c, <[c_id c := c_title c]> m) ∅ cols.

(** [col.parent?.$id] *)
Definition parent_id (col : Collection) : option Z := c_parent col ≫= ref_id.

(** [fullTitle]: the two [if]s test truthiness, so a parent id of 0 and
    an empty parent title both fall through to [col.title]. *)
Definition fullTitle (tb : gmap Z string) (col : Collection) : string :=
  match parent_id col with
  | Some p =>
      if bool_decide (p = 0) then c_title col
      else if truthy_str (tb !! p)
           then default "" (tb !! p) +:+ " / " +:+ c_title col
           else c_title col
  | None => c_title col
  end.

(** [r.collection?.$id] *)
Definition colId (r : Item) : option Z := r_collection r ≫= ref_id.

(** One turn of the grouping loop: [colId == null] skips the item,
    otherwise it is pushed on the (possibly fresh) list of its key. *)
Definition groupStep (m : gmap Z (list Item)) (r : Item) : gmap Z (list Item) :=
  match colId r with
  | None => m
  | Some k => <[k := default [] (m !! k) ++ [r]]> m
  end.

Definition raindropsByCollection (rs : list Item) : gmap Z (list Item) :=
  foldl groupStep ∅ rs.

(** [{ title: r.title || "(untitled)", url: r.link }] on an item that
    passed [.filter(r => r.link)]. *)
Definition tabOfItem (r : Item) : Tab :=
  {| tab_title := or_untitled (r_title r); tab_url := default "" (r_link r) |}.

Definition hasLink (r : Item) : Prop := truthy_str (r_link r).

(** Body of the loop over [collections]: what, if anything, is pushed. *)
Definition groupOf (tb : gmap Z string) (byCol : gmap Z (list Item))
    (col : Collection) : option TabGroup :=
  let colRaindrops := default [] (byCol !! c_id col) in
  if bool_decide (length colRaindrops = 0%nat) then None
  else
    let tabs := tabOfItem <$> filter hasLink colRaindrops in
    if bool_decide (0 < length tabs)%nat
    then Some {| group_name := fullTitle tb col; group_tabs := tabs |}
    else None.

Definition tabGroupsOf (cache : RaindropCache) : list TabGroup :=
  let tb := titleById (collections cache) in
  let byCol := raindropsByCollection (raindrops cache) in
  foldl (λ acc col, match groupOf tb byCol col with
                    | Some g => acc ++ [g]
                    | None => acc
                    end) [] (collections cache).

Definition toTabGroups (cache : RaindropCache) : list Profile :=
  [ {| profile_name := "Raindrop.io"; profile_tabGroups := tabGroupsOf cache |} ].

End Raindrop.

(** ** Safari reader (safari-tabgroups) *)

Module Safari.

(** A row of the [bookmarks] table, restricted to the columns queried.
    [title] and [url] may be NULL. *)
Record BookmarkRow := mkRow {
  row_id : Z;
  row_parent : Z;
  row_type : Z;
  row_subtype : Z;
  row_title : option string;
  row_url : option string;
  row_num_children : Z;
  row_hidden : Z;
  row_order_index : Z
}.

(** The table in the engine's scan order. [id] is INTEGER PRIMARY KEY. *)
Definition Table := list BookmarkRow.
Definition primary_key (db : Table) : Prop := NoDup (row_id <$> db).

(** Result rows of [SELECT id, title]. *)
Record IdTitle := mkIdTitle { it_id : Z; it_title : option string }.
Definition select_id_title (r : BookmarkRow) : IdTitle :=
  {| it_id := row_id r; it_title := row_title r |}.

(** ORDER BY id DESC / ORDER BY order_index ASC. *)
Definition id_desc (a b : BookmarkRow) : Prop := row_id b ≤ row_id a.
Definition order_index_asc (a b : BookmarkRow) : Prop :=
  row_order_index a ≤ row_order_index b.

(** WHERE type = 1 AND parent = 0 AND subtype = 0 AND num_children > 0
    AND hidden = 0 *)
Definition personalGroupWhere (r : BookmarkRow) : Prop :=
  row_type r = 1 ∧ row_parent r = 0 ∧ row_subtype r = 0 ∧
  0 < row_num_children r ∧ row_hidden r = 0.

(** WHERE parent = ? AND subtype = 0 AND num_children > 0 *)
Definition profileGroupWhere (pid : Z) (r : BookmarkRow) : Prop :=
  row_parent r = pid ∧ row_subtype r = 0 ∧ 0 < row_num_children r.

(** WHERE subtype = 2 AND title != ''   (NULL != '' is not true) *)
Definition profileWhere (r : BookmarkRow) : Prop :=
  row_subtype r = 2 ∧ ∃ t, row_title r = Some t ∧ t ≠ "".

Definition excludedTitles : list string :=
  ["TopScopedBookmarkList"; "Untitled"; "Start Page"].

(** WHERE parent = ? AND url != '' AND title NOT IN (...): a NULL url
    or a NULL title makes the condition NULL, and the row is left out. *)
Definition tabWhere (gid : Z) (r : BookmarkRow) : Prop :=
  row_parent r = gid ∧
  (∃ u, row_url r = Some u ∧ u ≠ "") ∧
  (∃ t, row_title r = Some t ∧ t ∉ excludedTitles).

#[global] Instance personalGroupWhere_dec r : Decision (personalGroupWhere r).
Proof. unfold personalGroupWhere. apply _. Defined.
#[global] Instance profileGroupWhere_dec pid r : Decision (profileGroupWhere pid r).
Proof. unfold profileGroupWhere. apply _. Defined.
#[global] Instance some_and_dec (o : option string) (P : string → Prop)
  `{∀ s, Decision (P s)} : Decision (∃ t, o = Some t ∧ P t).
Proof.
  destruct o as [s|].
  - destruct (decide (P s)) as [Hp|Hn].
    + left. by exists s.
    + right. intros (t & [= ->] & Ht). done.
  - right. by intros (t & [=] & _).
Defined.
#[global] Instance profileWhere_dec r : Decision (profileWhere r).
Proof. unfold profileWhere. apply _. Defined.
#[global] Instance tabWhere_dec gid r : Decision (tabWhere gid r).
Proof. unfold tabWhere. apply _. Defined.
#[global] Instance id_desc_dec a b : Decision (id_desc a b).
Proof. unfold id_desc. apply _. Defined.
#[global] Instance order_index_asc_dec a b : Decision (order_index_asc a b).
Proof. unfold order_index_asc. apply _. Defined.

Definition personalGroups (db : Table) : list IdTitle :=
  select_id_title <$> merge_sort id_desc (filter personalGroupWhere db).

Definition groupsOfProfile (db : Table) (pid : Z) : list IdTitle :=
  select_id_title <$> merge_sort id_desc (filter (profileGroupWhere pid) db).

Definition additionalProfiles (db : Table) : list IdTitle :=
  select_id_title <$> filter profileWhere db.

(** The rows behind the tab query, in result order. *)
Definition tabRows (db : Table) (gid : Z) : list BookmarkRow :=
  merge_sort order_index_asc (filter (tabWhere gid) db).

(** [SELECT title, url]: both are non-NULL on a row that passed
    [tabWhere]. *)
Definition select_title_url (r : BookmarkRow) : Tab :=
  {| tab_title := default "" (row_title r); tab_url := default "" (row_url r) |}.

Definition tabsOf (db : Table) (gid : Z) : list Tab :=
  select_title_url <$> tabRows db gid.

(** Body of the loop over groups: pushed only when [tabs.length > 0]. *)
Definition groupOf (db : Table) (g : IdTitle) : option TabGroup :=
  let tabs := tabsOf db (it_id g) in
  if bool_decide (0 < length tabs)%nat
  then Some {| group_name := or_untitled (it_title g); group_tabs := tabs |}
  else None.

Definition pushGroups (db : Table) (gs : list IdTitle) : list TabGroup :=
  foldl (λ acc g, match groupOf db g with
                  | Some tg => acc ++ [tg]
                  | None => acc
                  end) [] gs.

Definition personalProfile (db : Table) : Profile :=
  {| profile_name := "Personal";
     profile_tabGroups := pushGroups db (personalGroups db) |}.

(** [name: prof.title]; the query guarantees a non-empty string. *)
Definition profileEntry (db : Table) (prof : IdTitle) : Profile :=
  {| profile_name := default "" (it_title prof);
     profile_tabGroups := pushGroups db (groupsOfProfile db (it_id prof)) |}.

Definition readProfiles (db : Table) : list Profile :=
  foldl (λ profiles prof, profiles ++ [profileEntry db prof])
        [personalProfile db] (additionalProfiles db).

End Safari.


(** ** Cache refresher (sync-tabgroups) *)

(** The outcome of a call that may throw. *)
Inductive Result (A : Type) : Type :=
| Ok (a : A)
| Throw (msg : string).
Arguments Ok {A} a.
Arguments Throw {A} msg.

Module Sync.

(** A file as node:fs shows it: bytes and the two timestamps that
    [statSync] reports and [utimesSync] sets (milliseconds). The
    timestamps are whole milliseconds: the fraction of a millisecond that
    [mtimeMs] may carry and the [Date] handed to [utimesSync] drops is not
    represented, and neither is the change of a file's access time when
    the file is read. *)
Record File := mkFile { f_content : string; f_atime : Z; f_mtime : Z }.

Abbreviation FS := (gmap string File).

(** Code that reads and writes the file system and may throw. *)
Definition M (A : Type) : Type := FS → FS * Result A.

Definition ret {A} (a : A) : M A := λ fs, (fs, Ok a).
Definition throw {A} (msg : string) : M A := λ fs, (fs, Throw msg).
Definition bind {A B} (m : M A) (k : A → M B) : M B :=
  λ fs, match m fs with
        | (fs', Ok a) => k a fs'
        | (fs', Throw e) => (fs', Throw e)
        end.

Notation "'let!' x ':=' m 'in' k" := (bind m (λ x, k))
  (at level 10, x name, m at level 100, k at level 200, only parsing).
Notation "'do!' m 'in' k" := (bind m (λ _, k))
  (at level 10, m at level 100, k at level 200, only parsing).

(** [try { body } finally { fin }] *)
Definition try_finally {A} (body : M A) (fin : M unit) : M A :=
  λ fs, match body fs with
        | (fs', r) =>
            match fin fs' with
            | (fs'', Ok _) => (fs'', r)
            | (fs'', Throw e) => (fs'', Throw e)
            end
        end.

(** [try { body } catch { }] *)
Definition catch_ignore (body : M unit) : M unit :=
  λ fs, match body fs with
        | (fs', _) => (fs', Ok tt)
        end.

Fixpoint foldM {A B} (f : B → A → M B) (b : B) (l : list A) : M B :=
  match l with
  | [] => ret b
  | x :: l => let! b' := f b x in foldM f b' l
  end.

Definition forM_ {A} (l : list A) (f : A → M unit) : M unit :=
  foldM (λ _ x, f x) tt l.

(** *** node:fs *)

Definition existsSync (p : string) : M bool :=
  λ fs, (fs, Ok (bool_decide (is_Some (fs !! p)))).

Definition statSync (p : string) : M File :=
  λ fs, match fs !! p with
        | Some f => (fs, Ok f)
        | None => (fs, Throw "ENOENT")
        end.

(** A copy of [f] made at time [now]: the same bytes, fresh timestamps. *)
Definition stamped (now : Z) (f : File) : File :=
  {| f_content := f_content f; f_atime := now; f_mtime := now |}.

(** [copyFileSync(src, dst)] creates or overwrites [dst] with the bytes
    of [src]; the copy is stamped with the time of the call. *)
Definition copyFileSync (now : Z) (src dst : string) : M unit :=
  λ fs, match fs !! src with
        | Some f => (<[dst := stamped now f]> fs, Ok tt)
        | None => (fs, Throw "ENOENT")
        end.

Definition utimesSync (p : string) (atime mtime : Z) : M unit :=
  λ fs, match fs !! p with
        | Some f =>
            (<[p := {| f_content := f_content f; f_atime := atime; f_mtime := mtime |}]> fs,
             Ok tt)
        | None => (fs, Throw "ENOENT")
        end.

(** *** bun:sqlite

    [new Database(dbPath)], the checkpoint pragma and [db.close()] are the
    database engine's: it may rewrite, create or remove the main file and
    its -wal and -shm siblings, and it may fail. The engine is a parameter:
    from the three files it finds to the three files it leaves, with
    whether opening and checkpointing succeeded. *)
Record DbFiles := mkDbFiles {
  db_main : option File;
  db_wal : option File;
  db_shm : option File
}.

Definition Engine : Type := DbFiles → DbFiles * bool.

Definition readDbFiles (fs : FS) (base : string) : DbFiles :=
  {| db_main := fs !! base;
     db_wal := fs !! (base +:+ "-wal");
     db_shm := fs !! (base +:+ "-shm") |}.

Definition putFile (p : string) (o : option File) (fs : FS) : FS :=
  match o with
  | Some f => <[p := f]> fs
  | None => delete p fs
  end.

Definition writeDbFiles (fs : FS) (base : string) (d : DbFiles) : FS :=
  putFile (base +:+ "-shm") (db_shm d)
    (putFile (base +:+ "-wal") (db_wal d)
       (putFile base (db_main d) fs)).

(** *** Vocabulary for the freshness rule

    The three paths of a database, the modification times of those that
    exist, and what it is to be their maximum. *)
Definition dbPaths (base : string) : list string :=
  [base; base +:+ "-wal"; base +:+ "-shm"].

Definition mtimes (fs : FS) (base : string) : list Z :=
  omap (λ p, f_mtime <$> fs !! p) (dbPaths base).

Definition is_max (m : Z) (l : list Z) : Prop := m ∈ l ∧ ∀ x, x ∈ l → x ≤ m.

(** One turn of the "newest mtime" loop, as a function of what is found
    at the sibling's path. *)
Definition newer (fs : FS) (base : string) (newest : Z) (suffix : string) : Z :=
  match fs !! (base +:+ suffix) with
  | Some f => if bool_decide (newest < f_mtime f) then f_mtime f else newest
  | None => newest
  end.

(** What the copy step does for one file, [fs0] being the state the
    step started from. *)
Definition copyOne (now : Z) (fs0 : FS) (src dst : string) (fs : FS) : FS :=
  match fs0 !! src with
  | Some f => <[dst := stamped now f]> fs
  | None => fs
  end.

(** What one turn of the timestamp-restoring loop does. *)
Definition restoreOne (fs : FS) (src dst : string) : FS :=
  match fs !! src, fs !! dst with
  | Some s, Some d =>
      <[dst := {| f_content := f_content d; f_atime := f_atime s; f_mtime := f_mtime s |}]> fs
  | _, _ => fs
  end.

(** An engine that finds nothing to fold and leaves the files alone. *)
Definition idleEngine : Engine := λ d, (d, true).

(** An engine that folds the log and, closing the last connection,
    removes the -wal and -shm files. *)
Definition tidyEngine : Engine :=
  λ d, ({| db_main := db_main d; db_wal := None; db_shm := None |}, true).

Section SyncSafari.

Variable dbSource : string.   (* join(safariBase, "SafariTabs.db") *)
Variable dbPath : string.     (* join(cacheDir, "SafariTabs.db") *)
Variable now : Z.             (* the clock when files are copied *)
Variable engine : Engine.

(** The two "newest mtime" loops of the freshness check, over the source
    and over the cache: the main file must exist, siblings count when
    they exist. *)
Definition newestMtime (base : string) : M Z :=
  let! st := statSync base in
  foldM (λ newest suffix,
           let! ex := existsSync (base +:+ suffix) in
           if (ex : bool)
           then let! st' := statSync (base +:+ suffix) in
                ret (if bool_decide (newest < f_mtime st') then f_mtime st' else newest)
           else ret newest)
        (f_mtime st) ["-wal"; "-shm"].

(** The freshness check; the result is [needsCopy]. *)
Definition freshnessCheck : M bool :=
  let! ex := existsSync dbPath in
  if (ex : bool)
  then let! newestSrcMtime := newestMtime dbSource in
       let! newestCacheMtime := newestMtime dbPath in
       ret (negb (bool_decide (newestSrcMtime ≤ newestCacheMtime)))
  else ret true.

(** The body of [if (needsCopy)]. *)
Definition copyFiles : M unit :=
  do! copyFileSync now dbSource dbPath in
  forM_ ["-wal"; "-shm"] (λ suffix,
    let! ex := existsSync (dbSource +:+ suffix) in
    if (ex : bool)
    then copyFileSync now (dbSource +:+ suffix) (dbPath +:+ suffix)
    else ret tt).

(** The [try] block: open, checkpoint (and the close of [finally]). *)
Definition checkpoint : M unit :=
  λ fs, match engine (readDbFiles fs dbPath) with
        | (d, ok) =>
            (writeDbFiles fs dbPath d,
             if (ok : bool) then Ok tt else Throw "wal_checkpoint")
        end.

(** The rest of the [finally] block: source timestamps onto the cache. *)
Definition restoreTimestamps : M unit :=
  forM_ [ (dbSource, dbPath);
          (dbSource +:+ "-wal", dbPath +:+ "-wal");
          (dbSource +:+ "-shm", dbPath +:+ "-shm") ]
    (λ '(src, dst),
       catch_ignore (
         let! e1 := existsSync src in
         let! e2 := existsSync dst in
         if (e1 : bool) && (e2 : bool)
         then let! st := statSync src in utimesSync dst (f_atime st) (f_mtime st)
         else ret tt)).

(** [syncSafari]; the result is [needsCopy], which picks the final
    message: "Safari: synced" or "Safari: cache is fresh". *)
Definition syncSafari : M bool :=
  let! needsCopy := freshnessCheck in
  do! (if (needsCopy : bool) then copyFiles else ret tt) in
  do! try_finally checkpoint restoreTimestamps in
  ret needsCopy.

End SyncSafari.

(** *** The paginated sweep of all raindrops

    [raindropApi] on [/raindrops/0?perpage=50&page=N]: the server's answer
    to page [N] is its items, or a thrown error on a non-ok status. *)
Definition Server (A : Type) : Type := nat → Result (list A).

(** The [while (true)] loop of [fetchAllRaindrops] from a given [page]
    with [all] collected so far; [log] records the pages requested. The
    loop runs as long as the server keeps answering full pages, so the
    model is bounded by [fuel]: [None] means the bound was reached. *)
Fixpoint fetchLoop {A} (server : Server A) (fuel : nat) (page : nat)
    (all : list A) (log : list nat) : option (list nat * Result (list A)) :=
  match fuel with
  | O => None
  | S fuel =>
      match server page with
      | Throw e => Some (log ++ [page], Throw e)
      | Ok items =>
          if bool_decide (length items = 0%nat) then Some (log ++ [page], Ok all)
          else
            let all := all ++ items in
            if bool_decide (length items < 50)%nat then Some (log ++ [page], Ok all)
            else fetchLoop server fuel (S page) all (log ++ [page])
      end
  end.

Definition fetchAllRaindrops {A} (server : Server A) (fuel : nat)
    : option (list nat * Result (list A)) :=
  fetchLoop server fuel 0%nat [] [].

End Sync.

(** ** Listing command (list-tabgroups, src/list.ts) *)

Module Aggregator.

(** A finished source process: its exit code and the [profiles] of the
    JSON document on its standard output. *)
Record Proc := mkProc { exitCode : Z; stdout_profiles : list Profile }.

Record Flags := mkFlags { wantSafari : bool; wantRaindrop : bool }.

(** "Default to both sources if neither is specified" *)
Definition defaultSources (f : Flags) : Flags :=
  if negb (wantSafari f) && negb (wantRaindrop f)
  then {| wantSafari := true; wantRaindrop := true |}
  else f.

Definition sourcesRequested (f : Flags) : nat :=
  ((if wantSafari f then 1 else 0) + (if wantRaindrop f then 1 else 0))%nat.

(** The two variables the source tasks share. *)
Record State := mkState { allProfiles : list Profile; sourcesFailed : nat }.

(** What a source's async task does once its process has exited. *)
Definition sourceTask (st : State) (proc : Proc) : State :=
  if bool_decide (exitCode proc ≠ 0)
  then {| allProfiles := allProfiles st; sourcesFailed := S (sourcesFailed st) |}
  else {| allProfiles := allProfiles st ++ stdout_profiles proc;
          sourcesFailed := sourcesFailed st |}.

(** The requested sources in the order their tasks resume. Both are
    spawned before either is awaited, so which resumes first is the event
    loop's choice, here [raindropFirst]. *)
Definition tasks (f : Flags) (safari raindrop : Proc) (raindropFirst : bool)
    : list Proc :=
  let s := if wantSafari f then [safari] else [] in
  let r := if wantRaindrop f then [raindrop] else [] in
  if raindropFirst then r ++ s else s ++ r.

Inductive Outcome :=
| AllSourcesFailed                    (* the error message, exit(1) *)
| Printed (profiles : list Profile).  (* the output, exit code 0 *)

Definition exit_code (o : Outcome) : Z :=
  match o with
  | AllSourcesFailed => 1
  | Printed _ => 0
  end.

Definition aggregate (flags : Flags) (safari raindrop : Proc)
    (raindropFirst : bool) : Outcome :=
  let f := defaultSources flags in
  let st := foldl sourceTask {| allProfiles := []; sourcesFailed := 0 |}
                  (tasks f safari raindrop raindropFirst) in
  if bool_decide (sourcesFailed st = sourcesRequested f)
  then AllSourcesFailed
  else Printed (allProfiles st).

(** Vocabulary: a source failed when its exit code is not 0, and what a
    source contributes to the output. *)
Definition failed (p : Proc) : Prop := exitCode p ≠ 0.

Definition contribution (p : Proc) : list Profile :=
  if bool_decide (exitCode p ≠ 0) then [] else stdout_profiles p.

End Aggregator.

(** ** Text mode of the two readers

    The three nested [for] loops that print one line per tab; the Safari
    reader and the Raindrop reader end with the same loops. *)

Module Render.

Definition tabLine (p : Profile) (g : TabGroup) (t : Tab) : string :=
  profile_name p +:+ " / " +:+ group_name g +:+ " / " +:+ tab_title t
    +:+ " (" +:+ tab_url t +:+ ")".

Definition renderText (profiles : list Profile) : list string :=
  profiles ≫= λ p, profile_tabGroups p ≫= λ g, tabLine p g <$> group_tabs g.

End Render.

(** ** Vocabulary for what a file-system computation leaves alone *)

Module SyncView.

(** [m] never changes what is found at a path satisfying [P]. *)
Definition frames {A} (P : string → Prop) (m : Sync.M A) : Prop :=
  ∀ (fs : gmap string Sync.File) (p : string), P p → (m fs).1 !! p = fs !! p.

End SyncView.

(** ** Vocabulary for the Raindrop reader's output *)

Module RaindropView.

(** The items of a collection that carry a link, in cache order. *)
Definition linkedItemsOf (cache : Raindrop.RaindropCache)
    (col : Raindrop.Collection) : list Raindrop.Item :=
  filter (λ r, Raindrop.hasLink r ∧ Raindrop.colId r = Some (Raindrop.c_id col))
         (Raindrop.raindrops cache).

End RaindropView.

(** ** Raindrop sync (sync-tabgroups, [syncRaindrop]) *)

Module RaindropSync.

(** [s.startsWith(c)] for a one-character [c]. *)
Definition startsWithChar (c : Ascii.ascii) (s : string) : bool :=
  match s with
  | String a _ => bool_decide (a = c)
  | EmptyString => false
  end.

(** [s.slice(1)] *)
Definition slice1 (s : string) : string :=
  match s with
  | String _ rest => rest
  | EmptyString => EmptyString
  end.

(** The api key as configured, or, when the configured value starts with a
    dollar sign, the value of the environment variable it names:
    [process.env[apiKey.slice(1)] || ""]. *)
Definition resolveApiKey (env : gmap string string) (api_key : string) : string :=
  if startsWithChar "$"%char api_key
  then default "" (env !! slice1 api_key)
  else api_key.

(** [if (!apiKey) throw ...] *)
Definition requireApiKey (env : gmap string string) (api_key : string)
    : Result string :=
  let apiKey := resolveApiKey env api_key in
  if bool_decide (apiKey = "")
  then Throw "Raindrop API key not set. Configure api_key in fetch.config.toml or set the RAINDROP_TOKEN environment variable."
  else Ok apiKey.

(** The three endpoints as they answer a given Authorization header. *)
Record Api := mkApi {
  api_root : Result (list Raindrop.Collection);       (* /collections *)
  api_children : Result (list Raindrop.Collection);   (* /collections/childrens *)
  api_raindrops : Sync.Server Raindrop.Item           (* /raindrops/0?perpage=50&page=N *)
}.

Inductive Req := ReqRoot | ReqChildren | ReqSweep.

#[global] Instance Req_eq_dec : EqDecision Req.
Proof. solve_decision. Defined.

Definition errorOf {A} (r : option (Result A)) : option string :=
  match r with
  | Some (Throw e) => Some e
  | _ => None
  end.

(** [Promise.all] of the two collection requests and the sweep. It
    rejects as soon as one of them rejects, with that one's error: [order]
    is the order in which the three settle. It fulfils when all three have
    fulfilled; [None] is a sweep still running when the model's bound on
    loop turns is reached and nothing has rejected. *)
Definition fetchEverything (api : Api) (fuel : nat) (order : list Req)
    : option (Result (list Raindrop.Collection * list Raindrop.Collection
                      * list Raindrop.Item)) :=
  let sweep := snd <$> Sync.fetchAllRaindrops (api_raindrops api) fuel in
  let err (q : Req) : option string :=
    match q with
    | ReqRoot => errorOf (Some (api_root api))
    | ReqChildren => errorOf (Some (api_children api))
    | ReqSweep => errorOf sweep
    end in
  match omap err (order ++ [ReqRoot; ReqChildren; ReqSweep]) with
  | e :: _ => Some (Throw e)
  | [] =>
      match api_root api, api_children api, sweep with
      | Ok rootData, Ok childData, Some (Ok allRaindrops) =>
          Some (Ok (rootData, childData, allRaindrops))
      | _, _, _ => None
      end
  end.

(** The document of raindrop-collections.json. *)
Record CacheFile := mkCacheFile {
  fetchedAt : string;
  cf_collections : list Raindrop.Collection;
  cf_raindrops : list Raindrop.Item
}.

(** What the Raindrop reader parses out of the file. *)
Definition readCache (f : CacheFile) : Raindrop.RaindropCache :=
  Raindrop.mkCache (cf_collections f) (cf_raindrops f).

(** [syncRaindrop] on the state of the cache file ([None]: no file).
    [config] is the [api_key] of the loaded configuration, or the error
    thrown when loading fails; [api] is the service as it answers a bearer token;
    [clock] is [new Date().toISOString()] at the time of writing. *)
Definition syncRaindrop (config : Result string) (env : gmap string string)
    (api : string → Api) (fuel : nat) (order : list Req) (clock : string)
    (file : option CacheFile) : option (option CacheFile * Result unit) :=
  match config with
  | Throw e => Some (file, Throw e)
  | Ok api_key =>
      match requireApiKey env api_key with
      | Throw e => Some (file, Throw e)
      | Ok apiKey =>
          match fetchEverything (api apiKey) fuel order with
          | None => None
          | Some (Throw e) => Some (file, Throw e)
          | Some (Ok (rootData, childData, allRaindrops)) =>
              Some (Some {| fetchedAt := clock;
                            cf_collections := rootData ++ childData;
                            cf_raindrops := allRaindrops |},
                    Ok tt)
          end
      end
  end.

End RaindropSync.

(** ** describe-tabgroup: choosing groups, choosing pages, reading the answer *)

Module Describe.

(** The two nested loops that collect all tab groups across profiles. *)
Definition allGroups (allProfiles : list Profile) : list TabGroup :=
  allProfiles ≫= profile_tabGroups.

Inductive Stop :=
| Usage                    (* neither a group name nor --all *)
| NoData                   (* all sources failed *)
| NotFound (available : list TabGroup).

(** From the usage check to [targetGroups], the configuration in between
    taken as loaded. [groupName] is [positional[0]]. *)
Definition targetGroups (all : bool) (groupName : option string)
    (flags : Aggregator.Flags) (safari raindrop : Aggregator.Proc)
    (raindropFirst : bool) : Stop + list TabGroup :=
  if negb (truthy_str groupName) && negb all then inl Usage
  else
    let f := Aggregator.defaultSources flags in
    let st := foldl Aggregator.sourceTask
                {| Aggregator.allProfiles := []; Aggregator.sourcesFailed := 0 |}
                (Aggregator.tasks f safari raindrop raindropFirst) in
    if bool_decide (Aggregator.sourcesFailed st = Aggregator.sourcesRequested f)
    then inl NoData
    else
      let groups := allGroups (Aggregator.allProfiles st) in
      if all then inr groups
      else match list_find (λ g, Some (group_name g) = groupName) groups with
           | Some (_, found) => inr [found]
           | None => inl (NotFound groups)
           end.

(** [s.endsWith(suffix)] *)
Fixpoint endsWith (suffix s : string) : bool :=
  if bool_decide (s = suffix) then true
  else match s with
       | String _ rest => endsWith suffix rest
       | EmptyString => false
       end.

(** The domain filter of the second tier. [hostname] is
    [new URL(url).hostname], [None] when the constructor throws. *)
Definition eligibleTab (hostname : string → option string)
    (skip_domains : list string) (t : Tab) : Prop :=
  match hostname (tab_url t) with
  | Some host => (host ∉ skip_domains) ∧ endsWith ".ts.net" host = false
  | None => False
  end.

#[global] Instance eligibleTab_dec hostname skip t :
  Decision (eligibleTab hostname skip t).
Proof. unfold eligibleTab. destruct (hostname (tab_url t)); apply _. Defined.

(** [l.slice(0, n)] for an integer [n]: a negative [n] counts from the
    end. *)
Definition sliceTo {A} (n : Z) (l : list A) : list A :=
  if bool_decide (n < 0)
  then take (Z.to_nat (Z.of_nat (length l) + n)) l
  else take (Z.to_nat n) l.

Definition toFetch (hostname : string → option string)
    (skip_domains : list string) (max_tabs_to_fetch : Z) (g : TabGroup)
    : list Tab :=
  sliceTo max_tabs_to_fetch (filter (eligibleTab hostname skip_domains) (group_tabs g)).

(** The line feed. *)
Definition LF : string := String "010"%char EmptyString.

Fixpoint stripPrefix (p s : string) : option string :=
  match p with
  | EmptyString => Some s
  | String a p' =>
      match s with
      | String b s' => if bool_decide (a = b) then stripPrefix p' s' else None
      | EmptyString => None
      end
  end.

(** The part of [s] before a final [suffix], if [s] ends with it. *)
Fixpoint stripSuffix (suffix s : string) : option string :=
  if bool_decide (s = suffix) then Some EmptyString
  else match s with
       | String a rest => String a <$> stripSuffix suffix rest
       | EmptyString => None
       end.

Definition optionalChar (c : Ascii.ascii) (s : string) : string :=
  match s with
  | String a rest => if bool_decide (a = c) then rest else s
  | EmptyString => s
  end.

(** [.replace(/^```json?\n?/, "")]: three backticks and "jso" at the
    start, then an "n" and a line feed when they are there. *)
Definition stripOpeningFence (s : string) : string :=
  match stripPrefix "```jso" s with
  | Some rest => optionalChar "010"%char (optionalChar "n"%char rest)
  | None => s
  end.

(** [.replace(/\n?```$/, "")]: three backticks at the very end, with
    the line feed before them when there is one. *)
Definition stripClosingFence (s : string) : string :=
  match stripSuffix (LF +:+ "```") s with
  | Some body => body
  | None =>
      match stripSuffix "```" s with
      | Some body => body
      | None => s
      end
  end.

Definition stripFences (raw : string) : string :=
  stripClosingFence (stripOpeningFence raw).

End Describe.

(** ** Command lines of list-tabgroups and fetch-tabgroup *)

Module Cli.

Definition isFlagLike (arg : string) : bool := RaindropSync.startsWithChar "-"%char arg.

Record ListArgs := mkListArgs {
  la_verbose : bool;
  la_debug : bool;
  la_json : bool;
  la_safari : bool;
  la_raindrop : bool
}.

Inductive Parsed (A : Type) :=
| Help                       (* the help text, exit code 0 *)
| UnknownFlag (arg : string) (* "Unknown flag", exit code 1 *)
| MissingValue               (* "--prompt requires a value", exit code 1 *)
| Usage                      (* no url given, exit code 1 *)
| Args (a : A).
Arguments Help {A}.
Arguments Usage {A}.
Arguments UnknownFlag {A} arg.
Arguments MissingValue {A}.
Arguments Args {A} a.

(** One turn of the loop over [process.argv.slice(2)] in list-tabgroups:
    the new state, or the unknown flag that ends the process. *)
Definition listArg (st : ListArgs) (arg : string) : string + ListArgs :=
  if bool_decide (arg = "--verbose") then
    inr {| la_verbose := true; la_debug := la_debug st; la_json := la_json st;
           la_safari := la_safari st; la_raindrop := la_raindrop st |}
  else if bool_decide (arg = "--debug") then
    inr {| la_verbose := true; la_debug := true; la_json := la_json st;
           la_safari := la_safari st; la_raindrop := la_raindrop st |}
  else if bool_decide (arg = "--json") then
    inr {| la_verbose := la_verbose st; la_debug := la_debug st; la_json := true;
           la_safari := la_safari st; la_raindrop := la_raindrop st |}
  else if bool_decide (arg = "--safari") then
    inr {| la_verbose := la_verbose st; la_debug := la_debug st; la_json := la_json st;
           la_safari := true; la_raindrop := la_raindrop st |}
  else if bool_decide (arg = "--raindrop") then
    inr {| la_verbose := la_verbose st; la_debug := la_debug st; la_json := la_json st;
           la_safari := la_safari st; la_raindrop := true |}
  else if isFlagLike arg then inl arg
  else inr st.

Fixpoint listLoop (st : ListArgs) (argv : list string) : Parsed ListArgs :=
  match argv with
  | [] => Args st
  | arg :: rest =>
      match listArg st arg with
      | inl bad => UnknownFlag bad
      | inr st' => listLoop st' rest
      end
  end.

(** The command line of list-tabgroups up to and including the default
    of both sources. *)
Definition parseListArgs (argv : list string) : Parsed ListArgs :=
  if bool_decide ("--help" ∈ argv ∨ "-h" ∈ argv) then Help
  else match listLoop (mkListArgs false false false false false) argv with
       | Args st =>
           if negb (la_safari st) && negb (la_raindrop st)
           then Args {| la_verbose := la_verbose st; la_debug := la_debug st;
                        la_json := la_json st;
                        la_safari := true; la_raindrop := true |}
           else Args st
       | other => other
       end.

(** Vocabulary: does the word occur on the command line, and the flags
    list-tabgroups knows. *)
Definition has (flag : string) (argv : list string) : bool :=
  bool_decide (flag ∈ argv).

Definition listFlags : list string :=
  ["--verbose"; "--debug"; "--json"; "--safari"; "--raindrop"].

Record FetchArgs := mkFetchArgs {
  fa_positional : list string;
  fa_verbose : bool;
  fa_debug : bool;
  fa_prompt : option string
}.

(** The indexed loop of fetch-tabgroup: [--prompt] takes the next word,
    whatever it looks like, and ends the process when there is none or it
    is empty. *)
Fixpoint fetchLoop (st : FetchArgs) (argv : list string) : Parsed FetchArgs :=
  match argv with
  | [] => Args st
  | arg :: rest =>
      if bool_decide (arg = "--verbose") then
        fetchLoop {| fa_positional := fa_positional st; fa_verbose := true;
                     fa_debug := fa_debug st; fa_prompt := fa_prompt st |} rest
      else if bool_decide (arg = "--debug") then
        fetchLoop {| fa_positional := fa_positional st; fa_verbose := true;
                     fa_debug := true; fa_prompt := fa_prompt st |} rest
      else if bool_decide (arg = "--prompt") then
        match rest with
        | value :: rest' =>
            if bool_decide (value = "") then MissingValue
            else fetchLoop {| fa_positional := fa_positional st;
                              fa_verbose := fa_verbose st;
                              fa_debug := fa_debug st;
                              fa_prompt := Some value |} rest'
        | [] => MissingValue
        end
      else if isFlagLike arg then UnknownFlag arg
      else fetchLoop {| fa_positional := fa_positional st ++ [arg];
                        fa_verbose := fa_verbose st;
                        fa_debug := fa_debug st; fa_prompt := fa_prompt st |} rest
  end.

(** What the loop keeps true of its state. *)
Definition fetchInv (st : FetchArgs) : Prop :=
  (∀ v, fa_prompt st = Some v → v ≠ "") ∧
  Forall (λ w, isFlagLike w = false) (fa_positional st) ∧
  (fa_debug st = true → fa_verbose st = true).

(** The command line of fetch-tabgroup up to the check that a url was
    given. *)
Definition parseFetchArgs (argv : list string) : Parsed FetchArgs :=
  if bool_decide ("--help" ∈ argv ∨ "-h" ∈ argv) then Help
  else match fetchLoop (mkFetchArgs [] false false None) argv with
       | Args st =>
           if bool_decide (length (fa_positional st) < 1)%nat then Usage
           else Args st
       | other => other
       end.

End Cli.

(** ** Fixtures *)

Module Fixtures.

(** The name-flattening scenario: "Dev Tools" with child "Frameworks". *)
Definition devTools : Raindrop.Collection :=
  Raindrop.mkCollection 1 "Dev Tools" None.
Definition frameworks : Raindrop.Collection :=
  Raindrop.mkCollection 2 "Frameworks" (Some (Raindrop.mkRef (Some 1))).

(** A parent whose title is the empty string, and its child. *)
Definition unnamedParent : Raindrop.Collection :=
  Raindrop.mkCollection 1 "" None.

(** Items: with a link, with an empty title, without a collection. *)
Definition react : Raindrop.Item :=
  Raindrop.mkItem (Some "React") (Some "https://react.dev")
                  (Some (Raindrop.mkRef (Some 2))).
Definition untitledItem : Raindrop.Item :=
  Raindrop.mkItem (Some "") (Some "https://example.org")
                  (Some (Raindrop.mkRef (Some 2))).
Definition strayItem : Raindrop.Item :=
  Raindrop.mkItem (Some "Stray") (Some "https://stray.example") None.
Definition nullIdItem : Raindrop.Item :=
  Raindrop.mkItem (Some "Null") (Some "https://null.example")
                  (Some (Raindrop.mkRef None)).

(** Safari fixtures. The documented scenario: group 5 "Research" with
    one tab. *)
Definition researchDb : Safari.Table :=
  [ Safari.mkRow 5 0 1 0 (Some "Research") None 1 0 0;
    Safari.mkRow 6 5 0 0 (Some "Example") (Some "https://example.com") 0 0 0 ].

(** The same group, its only tab with an empty title. *)
Definition blankTitleDb : Safari.Table :=
  [ Safari.mkRow 5 0 1 0 (Some "Research") None 1 0 0;
    Safari.mkRow 6 5 0 0 (Some "") (Some "https://example.com") 0 0 0 ].

(** Two root groups, a second profile with one group, tabs out of order,
    and children that the tab query leaves out. *)
Definition twoProfilesDb : Safari.Table :=
  [ Safari.mkRow 5 0 1 0 (Some "Research") None 2 0 0;
    Safari.mkRow 7 0 1 0 (Some "") None 2 0 1;
    Safari.mkRow 12 0 1 0 (Some "Empty") None 1 0 2;
    Safari.mkRow 6 5 0 0 (Some "Second") (Some "https://b.example") 0 0 4;
    Safari.mkRow 8 5 0 0 (Some "First") (Some "https://a.example") 0 0 1;
    Safari.mkRow 9 7 0 0 (Some "Untitled") (Some "https://u.example") 0 0 0;
    Safari.mkRow 10 7 0 0 (Some "Z") (Some "https://z.example") 0 0 1;
    Safari.mkRow 13 12 0 0 (Some "Start Page") (Some "https://s.example") 0 0 0;
    Safari.mkRow 11 0 0 2 (Some "Work") None 1 0 3;
    Safari.mkRow 14 11 1 0 (Some "Tickets") None 1 0 0;
    Safari.mkRow 15 14 0 0 (Some "Board") (Some "https://jira.example") 0 0 0 ].

(** Sync fixtures. *)
Definition safariDb : string := "/home/me/Library/Safari/SafariTabs.db".
Definition cachedDb : string := "/home/me/.cache/safari-tabgroups/SafariTabs.db".

(** The source has a -wal newer than its database; the cache holds a
    database that was touched later than both, and no -wal. *)
Definition staleSiblingFs : gmap string Sync.File :=
  <[safariDb := Sync.mkFile "db-v2" 50 50]>
  (<[safariDb +:+ "-wal" := Sync.mkFile "wal-v2" 80 80]>
  (<[cachedDb := Sync.mkFile "db-v1" 100 100]> ∅)).

(** A live source (database, newer -wal and -shm) and no cache yet. *)
Definition liveSourceFs : gmap string Sync.File :=
  <[safariDb := Sync.mkFile "db" 50 50]>
  (<[safariDb +:+ "-wal" := Sync.mkFile "wal" 80 80]>
  (<[safariDb +:+ "-shm" := Sync.mkFile "shm" 80 80]> ∅)).

(** A cache older than the source. *)
Definition staleCacheFs : gmap string Sync.File :=
  <[safariDb := Sync.mkFile "db-v2" 50 50]>
  (<[safariDb +:+ "-wal" := Sync.mkFile "wal-v2" 80 80]>
  (<[cachedDb := Sync.mkFile "db-v1" 40 40]> ∅)).

(** A server with two full pages and a last page of three items. *)
Definition threePages (n : nat) : list nat :=
  if bool_decide (n < 2)%nat then replicate 50 n else replicate 3 n.
Definition threePageServer : Sync.Server nat := λ n, Ok (threePages n).

(** Source processes: Safari answers, Raindrop has no cache. *)
Definition safariOk : Aggregator.Proc :=
  Aggregator.mkProc 0
    [ mkProfile "Personal"
        [ mkTabGroup "Research" [ mkTab "Example" "https://example.com" ] ] ].
Definition raindropDown : Aggregator.Proc := Aggregator.mkProc 1 [].

Definition orphanItem : Raindrop.Item :=
  Raindrop.mkItem (Some "Orphan") (Some "https://orphan.example")
                  (Some (Raindrop.mkRef (Some 99))).

(** A cache without its source. *)
Definition cacheOnlyFs : gmap string Sync.File :=
  <[cachedDb := Sync.mkFile "db-v1" 40 40]> ∅.

(** A server whose second page fails. *)
Definition failingServer : Sync.Server nat :=
  λ n, if bool_decide (n = 0)%nat then Ok (threePages n) else Throw "API 500: down".

(** The environment, and a service that answers a single token. *)
Definition tokenEnv : gmap string string := <["RAINDROP_TOKEN" := "secret"]> ∅.

Definition smallService (token : string) : RaindropSync.Api :=
  if bool_decide (token = "secret")
  then RaindropSync.mkApi (Ok [devTools]) (Ok [frameworks]) (λ _, Ok [react])
  else RaindropSync.mkApi (Throw "API 401: unauthorized")
         (Throw "API 401: unauthorized") (λ _, Throw "API 401: unauthorized").

(** A service that refuses the collections and never runs out of items. *)
Definition endlessService (token : string) : RaindropSync.Api :=
  RaindropSync.mkApi (Throw "API 401: unauthorized") (Ok [])
    (λ _, Ok (replicate 50 react)).

(** A Raindrop reader whose output has a group of the same name as
    Safari's. *)
Definition raindropResearch : Aggregator.Proc :=
  Aggregator.mkProc 0
    [ mkProfile "Raindrop.io"
        [ mkTabGroup "Research" [ mkTab "Paper" "https://arxiv.example" ] ] ].

(** A group for the second tier, and a stand-in for URL parsing that knows
    its three urls. *)
Definition demoGroup : TabGroup :=
  mkTabGroup "Demo"
    [ mkTab "Mail" "https://mail.example/inbox";
      mkTab "NAS" "https://nas.tail1234.ts.net/";
      mkTab "Docs" "https://docs.example/guide" ].

Definition demoHostname (url : string) : option string :=
  if bool_decide (url = "https://mail.example/inbox") then Some "mail.example"
  else if bool_decide (url = "https://nas.tail1234.ts.net/") then Some "nas.tail1234.ts.net"
  else if bool_decide (url = "https://docs.example/guide") then Some "docs.example"
  else None.

End Fixtures.

(** * Properties *)

(** ** Loops that push onto an array *)

Lemma foldl_push_omap {A B} (f : A → option B) (l : list A) (acc : list B) :
  foldl (λ acc x, match f x with Some y => acc ++ [y] | None => acc end) acc l
  = acc ++ omap f l.
Proof.
  revert acc. induction l as [|x l IH]; intros acc; simpl.
  - by rewrite app_nil_r.
  - rewrite IH. destruct (f x) as [y|]; simpl; [|done].
    by rewrite <- app_assoc.
Qed.

Lemma foldl_push_fmap {A B} (f : A → B) (l : list A) (acc : list B) :
  foldl (λ acc x, acc ++ [f x]) acc l = acc ++ (f <$> l).
Proof.
  revert acc. induction l as [|x l IH]; intros acc; simpl.
  - by rewrite app_nil_r.
  - rewrite IH. by rewrite <- app_assoc.
Qed.

Lemma truthy_str_Some (o : option string) :
  truthy_str o = true ↔ ∃ s, o = Some s ∧ s ≠ "".
Proof.
  destruct o as [s|]; simpl.
  - rewrite negb_true_iff, bool_decide_eq_false. split.
    + intros Hs. by exists s.
    + by intros (s' & [= <-] & Hs).
  - split; [done|]. by intros (s & [=] & _).
Qed.

Lemma or_untitled_nonempty (o : option string) : or_untitled o ≠ "".
Proof.
  destruct o as [s|]; simpl; [|done].
  case_bool_decide; [done|done].
Qed.

Lemma or_untitled_truthy (o : option string) s :
  o = Some s → s ≠ "" → or_untitled o = s.
Proof. intros -> Hs. simpl. by rewrite bool_decide_eq_false_2. Qed.

(** ** Raindrop normaliser *)

Section RaindropProps.
Import Raindrop.

Lemma tabGroupsOf_omap cache :
  tabGroupsOf cache
  = omap (Raindrop.groupOf (titleById (collections cache))
                           (raindropsByCollection (raindrops cache)))
         (collections cache).
Proof. unfold tabGroupsOf. by rewrite foldl_push_omap. Qed.

Lemma titleById_snoc cols c :
  titleById (cols ++ [c]) = <[c_id c := c_title c]> (titleById cols).
Proof. unfold titleById. by rewrite foldl_app. Qed.

(** The lookup holds, for each id, the title of the last collection
    fetched under that id. *)
Lemma titleById_lookup cols p :
  titleById cols !! p = c_title <$> last (filter (λ c, c_id c = p) cols).
Proof.
  induction cols as [|c cols IH] using rev_ind; [done|].
  rewrite titleById_snoc, filter_app.
  destruct (decide (c_id c = p)) as [Heq|Hne].
  - rewrite Heq, lookup_insert_eq.
    rewrite filter_cons_True by done. rewrite filter_nil. by rewrite last_snoc.
  - rewrite lookup_insert_ne by done.
    rewrite filter_cons_False by done. rewrite filter_nil. by rewrite app_nil_r.
Qed.

(** The lookup reads ids and titles only, never a parent link. *)
Lemma titleById_ids_titles cols cols' :
  (λ c, (c_id c, c_title c)) <$> cols = (λ c, (c_id c, c_title c)) <$> cols' →
  titleById cols = titleById cols'.
Proof.
  revert cols'. induction cols as [|c cols IH] using rev_ind; intros cols' H.
  - symmetry in H. apply fmap_nil_inv in H. by subst.
  - rewrite fmap_app in H. simpl in H. symmetry in H.
    apply fmap_app_inv in H as (l1 & l2 & H1 & H2 & ->).
    destruct l2 as [|c' [|? ?]]; [done| |done]. simpl in H2.
    injection H2 as Hid Hti.
    rewrite !titleById_snoc, (IH l1) by done. congruence.
Qed.

Lemma groupStep_lookup m rs k :
  default [] (foldl groupStep m rs !! k)
  = default [] (m !! k) ++ filter (λ r, colId r = Some k) rs.
Proof.
  revert m. induction rs as [|r rs IH]; intros m; simpl.
  - by rewrite app_nil_r.
  - rewrite IH. unfold groupStep.
    destruct (colId r) as [k'|] eqn:Hr.
    + destruct (decide (k' = k)) as [->|Hne].
      * rewrite lookup_insert_eq. simpl.
        rewrite filter_cons_True by done. by rewrite <- app_assoc.
      * rewrite lookup_insert_ne by done.
        rewrite filter_cons_False by congruence. done.
    + rewrite filter_cons_False by congruence. done.
Qed.

(** The list grouped under a collection id is the items that carry that
    id, in cache order. *)
Lemma raindropsByCollection_lookup rs k :
  default [] (raindropsByCollection rs !! k) = filter (λ r, colId r = Some k) rs.
Proof. unfold raindropsByCollection. by rewrite groupStep_lookup, lookup_empty. Qed.

Lemma groupStep_skip m r : colId r = None → groupStep m r = m.
Proof. unfold groupStep. by intros ->. Qed.

Lemma groupOf_Some tb byCol col g :
  Raindrop.groupOf tb byCol col = Some g →
  group_name g = fullTitle tb col ∧
  group_tabs g = tabOfItem <$> filter hasLink (default [] (byCol !! c_id col)) ∧
  group_tabs g ≠ [].
Proof.
  unfold Raindrop.groupOf. intros H.
  case_bool_decide; [done|]. case_bool_decide as Hlen; [|done].
  simplify_eq/=. split_and!; [done|done|].
  intros Hnil. rewrite Hnil in Hlen. simpl in Hlen. lia.
Qed.

Lemma elem_of_raindrop_output cache p g :
  p ∈ toTabGroups cache → g ∈ profile_tabGroups p →
  ∃ col, col ∈ collections cache ∧
    Raindrop.groupOf (titleById (collections cache))
      (raindropsByCollection (raindrops cache)) col = Some g.
Proof.
  unfold toTabGroups. intros Hp Hg.
  apply list_elem_of_singleton in Hp. subst p. simpl in Hg.
  rewrite tabGroupsOf_omap in Hg. by apply list_elem_of_omap in Hg.
Qed.

Lemma raindrop_tab_origin cache p g t :
  p ∈ toTabGroups cache → g ∈ profile_tabGroups p → t ∈ group_tabs g →
  ∃ col r, col ∈ collections cache ∧ r ∈ raindrops cache ∧
    colId r = Some (c_id col) ∧ hasLink r ∧ t = tabOfItem r.
Proof.
  intros Hp Hg Ht.
  destruct (elem_of_raindrop_output _ _ _ Hp Hg) as (col & Hcol & Hgo).
  apply groupOf_Some in Hgo as (_ & Htabs & _).
  rewrite Htabs, raindropsByCollection_lookup in Ht.
  apply list_elem_of_fmap in Ht as (r & -> & Hr).
  apply list_elem_of_filter in Hr as (Hl & Hr).
  apply list_elem_of_filter in Hr as (Hc & Hr).
  by exists col, r.
Qed.

End RaindropProps.

(** ** Raindrop: group names (C5) and items without a collection (C10) *)

Section RaindropClaims.
Import Raindrop Fixtures.

(** C5, as stated, fails: a parent id that is present in the lookup is not
    enough. The parent here is fetched, its title is the empty string, and
    the child is named by its own title alone, not " / Frameworks". *)
Lemma C5_counterexample :
  parent_id frameworks = Some 1 ∧
  titleById [unnamedParent; frameworks] !! 1 = Some (c_title unnamedParent) ∧
  toTabGroups (mkCache [unnamedParent; frameworks] [react])
  = [ mkProfile "Raindrop.io"
        [ mkTabGroup "Frameworks" [ mkTab "React" "https://react.dev" ] ] ] ∧
  fullTitle (titleById [unnamedParent; frameworks]) frameworks
  ≠ c_title unnamedParent +:+ " / " +:+ c_title frameworks.
Proof. split_and!; [reflexivity|reflexivity|reflexivity|]. by vm_compute. Qed.

(** C5 (amended): a collection is named [parentTitle + " / " + ownTitle]
    when its parent id is non-zero and the last collection fetched under
    that id has a non-empty title, and by its own title in every other
    case (no parent id, parent id 0, parent not fetched, parent title
    empty). Every emitted group carries the name of its collection so
    computed. The name reads no parent link but the collection's own, so
    no grandparent title is ever joined in. *)
Theorem C5_group_name :
  (∀ cols col p pc,
     parent_id col = Some p → p ≠ 0 →
     last (filter (λ c, c_id c = p) cols) = Some pc → c_title pc ≠ "" →
     fullTitle (titleById cols) col = c_title pc +:+ " / " +:+ c_title col) ∧
  (∀ cols col,
     parent_id col = None ∨ parent_id col = Some 0 ∨
     (∃ p, parent_id col = Some p ∧ ∀ c, c ∈ cols → c_id c ≠ p) ∨
     (∃ p pc, parent_id col = Some p ∧
        last (filter (λ c, c_id c = p) cols) = Some pc ∧ c_title pc = "") →
     fullTitle (titleById cols) col = c_title col) ∧
  (∀ cache p g,
     p ∈ toTabGroups cache → g ∈ profile_tabGroups p →
     ∃ col, col ∈ collections cache ∧
       group_name g = fullTitle (titleById (collections cache)) col) ∧
  (∀ cols cols' col,
     (λ c, (c_id c, c_title c)) <$> cols = (λ c, (c_id c, c_title c)) <$> cols' →
     fullTitle (titleById cols) col = fullTitle (titleById cols') col).
Proof.
  split_and!.
  - intros cols col p pc Hp Hp0 Hlast Hpc. unfold fullTitle.
    rewrite Hp, bool_decide_eq_false_2 by done.
    rewrite titleById_lookup, Hlast. simpl.
    by rewrite bool_decide_eq_false_2.
  - intros cols col H. unfold fullTitle.
    destruct H as [->|[->|[(p & -> & Hp)|(p & pc & -> & Hlast & Hpc)]]];
      [done|done| |].
    + case_bool_decide; [done|]. rewrite titleById_lookup.
      destruct (last _) as [c|] eqn:Hl; [|done].
      apply last_Some_elem_of, list_elem_of_filter in Hl as [Hc Hin].
      by destruct (Hp c Hin).
    + case_bool_decide; [done|]. rewrite titleById_lookup, Hlast. simpl.
      by rewrite Hpc.
  - intros cache p g Hp Hg.
    destruct (elem_of_raindrop_output _ _ _ Hp Hg) as (col & Hcol & Hgo).
    apply groupOf_Some in Hgo as (Hn & _). by exists col.
  - intros cols cols' col H. by rewrite (titleById_ids_titles cols cols').
Qed.

(** The documented scenario: "Frameworks" under "Dev Tools". *)
Lemma C5_group_name_witness :
  fullTitle (titleById [devTools; frameworks]) frameworks
  = "Dev Tools / Frameworks".
Proof.
  destruct C5_group_name as (Hjoin & _).
  apply (Hjoin [devTools; frameworks] frameworks 1 devTools);
    [reflexivity | lia | reflexivity | by vm_compute].
Defined.

(** C10: an item whose collection reference is absent, or whose
    collection id is null, leaves the output exactly as it is without the
    item, wherever the item stands in the cache; and every emitted tab is
    made from an item that does carry a collection id. *)
Theorem C10_item_without_collection cols (rs1 rs2 : list Item) (r : Item) :
  r_collection r = None ∨ r_collection r = Some (mkRef None) →
  toTabGroups (mkCache cols (rs1 ++ r :: rs2))
  = toTabGroups (mkCache cols (rs1 ++ rs2)) ∧
  ∀ p g t,
    p ∈ toTabGroups (mkCache cols (rs1 ++ r :: rs2)) →
    g ∈ profile_tabGroups p → t ∈ group_tabs g →
    ∃ r', r' ∈ rs1 ++ rs2 ∧ is_Some (colId r') ∧ t = tabOfItem r'.
Proof.
  intros Hr.
  assert (colId r = None) as Hnone.
  { unfold colId. by destruct Hr as [->| ->]. }
  assert (toTabGroups (mkCache cols (rs1 ++ r :: rs2))
          = toTabGroups (mkCache cols (rs1 ++ rs2))) as Heq.
  { unfold toTabGroups, tabGroupsOf, raindropsByCollection. simpl.
    rewrite !foldl_app. simpl. by rewrite groupStep_skip. }
  split; [done|].
  intros p g t Hp Hg Ht. rewrite Heq in Hp.
  destruct (raindrop_tab_origin _ _ _ _ Hp Hg Ht)
    as (col & r' & _ & Hin & Hc & _ & ->).
  exists r'. split_and!; [done| |done]. by rewrite Hc.
Qed.

Example null_collection_id_skipped :
  toTabGroups (mkCache [devTools; frameworks] [react; nullIdItem])
  = toTabGroups (mkCache [devTools; frameworks] [react]).
Proof. reflexivity. Qed.

Lemma C10_item_without_collection_witness :
  toTabGroups (mkCache [devTools; frameworks] ([react] ++ strayItem :: [untitledItem]))
  = toTabGroups (mkCache [devTools; frameworks] ([react] ++ [untitledItem])).
Proof.
  apply (C10_item_without_collection [devTools; frameworks]
           [react] [untitledItem] strayItem).
  left. reflexivity.
Defined.

End RaindropClaims.

(** ** Safari reader *)

Section SafariProps.
Import Safari.

Lemma pushGroups_omap db gs : pushGroups db gs = omap (Safari.groupOf db) gs.
Proof. unfold pushGroups. by rewrite foldl_push_omap. Qed.

Lemma readProfiles_cons db :
  readProfiles db = personalProfile db :: (profileEntry db <$> additionalProfiles db).
Proof. unfold readProfiles. by rewrite foldl_push_fmap. Qed.

Lemma safari_groupOf_Some db g tg :
  Safari.groupOf db g = Some tg →
  tg = mkTabGroup (or_untitled (it_title g)) (tabsOf db (it_id g)) ∧
  group_tabs tg ≠ [].
Proof.
  unfold Safari.groupOf. intros H. case_bool_decide as Hlen; [|done].
  injection H as <-. split; [done|]. simpl.
  intros Hnil. rewrite Hnil in Hlen. simpl in Hlen. lia.
Qed.

(** Every profile's groups are pushed from one of the two group queries. *)
Lemma profile_groups db p :
  p ∈ readProfiles db →
  profile_tabGroups p = pushGroups db (personalGroups db) ∨
  ∃ prof, prof ∈ additionalProfiles db ∧
    profile_tabGroups p = pushGroups db (groupsOfProfile db (it_id prof)).
Proof.
  rewrite readProfiles_cons. intros Hp.
  apply elem_of_cons in Hp as [->|Hp]; [by left|].
  apply list_elem_of_fmap in Hp as (prof & -> & Hprof). right. by exists prof.
Qed.

Lemma elem_of_tabRows db gid r : r ∈ tabRows db gid ↔ tabWhere gid r ∧ r ∈ db.
Proof. unfold tabRows. by rewrite merge_sort_Permutation, list_elem_of_filter. Qed.

#[local] Instance id_desc_trans : Transitive id_desc.
Proof. unfold id_desc. intros a b c. lia. Qed.
#[local] Instance id_desc_total : Total id_desc.
Proof. unfold id_desc. intros a b. lia. Qed.
#[local] Instance order_index_asc_trans : Transitive order_index_asc.
Proof. unfold order_index_asc. intros a b c. lia. Qed.
#[local] Instance order_index_asc_total : Total order_index_asc.
Proof. unfold order_index_asc. intros a b. lia. Qed.

Lemma tabRows_sorted db gid : StronglySorted order_index_asc (tabRows db gid).
Proof. apply StronglySorted_merge_sort; apply _. Qed.

Lemma StronglySorted_filter {A} (R : relation A) (P : A → Prop)
    `{∀ x, Decision (P x)} (l : list A) :
  StronglySorted R l → StronglySorted R (filter P l).
Proof.
  induction 1 as [|x l Hs IH Hx]; [constructor|].
  rewrite filter_cons. case_decide; [|done].
  constructor; [done|].
  apply Forall_forall. intros y Hy. apply list_elem_of_filter in Hy as [_ Hy].
  rewrite Forall_forall in Hx. by apply Hx.
Qed.

(** ORDER BY id DESC over rows with distinct ids is strictly decreasing. *)
Lemma id_desc_strict (l : list BookmarkRow) :
  StronglySorted id_desc l → NoDup (row_id <$> l) →
  StronglySorted (λ a b, row_id b < row_id a) l.
Proof.
  induction 1 as [|x l Hs IH Hx]; intros Hnd; [constructor|].
  rewrite fmap_cons in Hnd. apply NoDup_cons in Hnd as [Hnin Hnd].
  constructor; [by apply IH|].
  rewrite Forall_forall in Hx. apply Forall_forall. intros y Hy.
  specialize (Hx y Hy). unfold id_desc in Hx.
  assert (row_id y ≠ row_id x); [|lia].
  intros Heq. apply Hnin. rewrite <- Heq. by apply list_elem_of_fmap_2.
Qed.

Lemma group_query_sorted db (P : BookmarkRow → Prop) `{∀ r, Decision (P r)} :
  primary_key db →
  StronglySorted (λ a b, it_id b < it_id a)
    (select_id_title <$> merge_sort id_desc (filter P db)).
Proof.
  intros Hpk.
  apply (StronglySorted_fmap select_id_title (λ a b, row_id b < row_id a));
    [by intros a b|].
  apply id_desc_strict; [apply StronglySorted_merge_sort; apply _|].
  rewrite merge_sort_Permutation.
  eapply sublist_NoDup; [exact Hpk|]. apply fmap_sublist, sublist_filter.
Qed.

Lemma group_query_elem db (P : BookmarkRow → Prop) `{∀ r, Decision (P r)} g :
  g ∈ select_id_title <$> merge_sort id_desc (filter P db) →
  ∃ r, r ∈ db ∧ P r ∧ g = select_id_title r.
Proof.
  intros Hg. apply list_elem_of_fmap in Hg as (r & -> & Hr).
  rewrite merge_sort_Permutation in Hr.
  apply list_elem_of_filter in Hr as [HP Hr]. by exists r.
Qed.

(** What the push loop leaves of a query result: the rows with at least
    one tab, in query order, each turned into a group. *)
Lemma pushGroups_filter db gs :
  pushGroups db gs
  = (λ g, mkTabGroup (or_untitled (it_title g)) (tabsOf db (it_id g)))
      <$> filter (λ g, 0 < length (tabsOf db (it_id g)))%nat gs.
Proof.
  rewrite pushGroups_omap. induction gs as [|g gs IH]; [done|].
  rewrite filter_cons. cbn [omap list_omap]. rewrite IH.
  unfold Safari.groupOf.
  case_bool_decide; case_decide; done.
Qed.

Lemma safari_tab_origin db p g t :
  p ∈ readProfiles db → g ∈ profile_tabGroups p → t ∈ group_tabs g →
  ∃ gid r, r ∈ db ∧ tabWhere gid r ∧ t = select_title_url r.
Proof.
  intros Hp Hg Ht.
  assert (∃ gs, profile_tabGroups p = pushGroups db gs) as [gs Hgs].
  { destruct (profile_groups _ _ Hp) as [?|(prof & _ & ?)]; eauto. }
  rewrite Hgs, pushGroups_omap in Hg.
  apply list_elem_of_omap in Hg as (ig & _ & Hgo).
  apply safari_groupOf_Some in Hgo as [-> _]. simpl in Ht.
  apply list_elem_of_fmap in Ht as (r & -> & Hr).
  apply elem_of_tabRows in Hr as [Hw Hr]. by exists (it_id ig), r.
Qed.

End SafariProps.

(** ** Tabs and groups of the normalised output (C1, C3, C4, C9) *)

Section OutputClaims.
Import Safari Raindrop Fixtures.

(** C1 fails on the code, in the Safari reader. The tab query tests the
    title against the exclusion set only, so on a table whose group 5
    "Research" has one child row with the title '' and the url
    https://example.com that row is neither dropped nor given a
    placeholder: it is emitted as a tab with an empty title, which the
    repository's schema test ("every tab has a non-empty title and url")
    rules out. The sibling paths do guard against the empty string: the
    same reader names a group with an empty title "(untitled)" (group 7 of
    the second table), and the Raindrop normaliser emits a linked item
    with an empty title under "(untitled)". *)
Theorem C1_safari_blank_title :
  readProfiles blankTitleDb
  = [ mkProfile "Personal"
        [ mkTabGroup "Research" [ mkTab "" "https://example.com" ] ] ] ∧
  (∃ p g t, p ∈ readProfiles blankTitleDb ∧ g ∈ profile_tabGroups p ∧
            t ∈ group_tabs g ∧ tab_title t = "" ∧ tab_url t = "https://example.com") ∧
  Safari.groupOf twoProfilesDb (mkIdTitle 7 (Some ""))
  = Some (mkTabGroup "(untitled)" [ mkTab "Z" "https://z.example" ]) ∧
  r_title untitledItem = Some "" ∧
  toTabGroups (mkCache [devTools; frameworks] [untitledItem])
  = [ mkProfile "Raindrop.io"
        [ mkTabGroup "Dev Tools / Frameworks"
            [ mkTab "(untitled)" "https://example.org" ] ] ].
Proof.
  split_and!; try reflexivity.
  exists (mkProfile "Personal"
            [ mkTabGroup "Research" [ mkTab "" "https://example.com" ] ]),
         (mkTabGroup "Research" [ mkTab "" "https://example.com" ]),
         (mkTab "" "https://example.com").
  split_and!; try reflexivity; simpl; left.
Qed.

(** What the two readers do guarantee of a tab's fields. Every tab of the
    Safari reader is the title and url of a table row whose url is a
    non-empty string and whose title is a string outside the exclusion
    set. Every tab of the Raindrop normaliser has a non-empty title and a
    non-empty url: it is made from a cached item with a non-empty link,
    whose title is kept when it is non-empty and replaced by "(untitled)"
    otherwise. *)
Lemma emitted_tab_fields :
  (∀ db p g t,
     p ∈ readProfiles db → g ∈ profile_tabGroups p → t ∈ group_tabs g →
     tab_url t ≠ "" ∧ (tab_title t ∉ excludedTitles) ∧
     ∃ r, r ∈ db ∧ row_url r = Some (tab_url t) ∧ row_title r = Some (tab_title t)) ∧
  (∀ cache p g t,
     p ∈ toTabGroups cache → g ∈ profile_tabGroups p → t ∈ group_tabs g →
     tab_url t ≠ "" ∧ tab_title t ≠ "" ∧
     ∃ r, r ∈ raindrops cache ∧ r_link r = Some (tab_url t) ∧
          tab_title t = or_untitled (r_title r)).
Proof.
  split.
  - intros db p g t Hp Hg Ht.
    destruct (safari_tab_origin _ _ _ _ Hp Hg Ht)
      as (gid & r & Hr & (_ & (u & Hu & Hu') & (ti & Hti & Hti')) & ->).
    unfold select_title_url. simpl. rewrite Hu, Hti. simpl.
    split_and!; [done|done|]. exists r. by rewrite Hu, Hti.
  - intros cache p g t Hp Hg Ht.
    destruct (raindrop_tab_origin _ _ _ _ Hp Hg Ht)
      as (col & r & _ & Hr & _ & Hl & ->).
    apply Is_true_true, truthy_str_Some in Hl as (l & Hl & Hl').
    unfold tabOfItem. simpl. rewrite Hl. simpl.
    split_and!; [done|apply or_untitled_nonempty|]. by exists r.
Qed.

(** C3: no emitted tab group is empty, in either source. A Safari group
    row all of whose children fail the tab filter (NULL or empty url, NULL
    or excluded title) pushes no group, and neither does a collection none
    of whose items carries a link. *)
Theorem C3_no_empty_group :
  (∀ db p g,
     p ∈ readProfiles db → g ∈ profile_tabGroups p → group_tabs g ≠ []) ∧
  (∀ cache p g,
     p ∈ toTabGroups cache → g ∈ profile_tabGroups p → group_tabs g ≠ []) ∧
  (∀ db g,
     (∀ r, r ∈ db → row_parent r = it_id g →
        row_url r = None ∨ row_url r = Some "" ∨ row_title r = None ∨
        ∃ t, row_title r = Some t ∧ t ∈ excludedTitles) →
     Safari.groupOf db g = None) ∧
  (∀ cache col,
     (∀ r, r ∈ raindrops cache → colId r = Some (c_id col) →
        r_link r = None ∨ r_link r = Some "") →
     Raindrop.groupOf (titleById (collections cache))
       (raindropsByCollection (raindrops cache)) col = None).
Proof.
  split_and!.
  - intros db p g Hp Hg.
    assert (∃ gs, profile_tabGroups p = pushGroups db gs) as [gs Hgs].
    { destruct (profile_groups _ _ Hp) as [?|(prof & _ & ?)]; eauto. }
    rewrite Hgs, pushGroups_omap in Hg.
    apply list_elem_of_omap in Hg as (ig & _ & Hgo).
    by apply safari_groupOf_Some in Hgo as [_ ?].
  - intros cache p g Hp Hg.
    destruct (elem_of_raindrop_output _ _ _ Hp Hg) as (col & _ & Hgo).
    by apply groupOf_Some in Hgo as (_ & _ & ?).
  - intros db g Hex. unfold Safari.groupOf.
    assert (tabRows db (it_id g) = []) as Hnil.
    { apply elem_of_nil_inv. intros r Hr.
      apply elem_of_tabRows in Hr
        as [(Hpar & (u & Hu & Hu') & (ti & Hti & Hti')) Hr].
      destruct (Hex r Hr Hpar) as [?|[?|[?|(t' & ? & ?)]]]; congruence. }
    unfold tabsOf. by rewrite Hnil.
  - intros cache col Hex. unfold Raindrop.groupOf.
    rewrite raindropsByCollection_lookup.
    assert (filter hasLink (filter (λ r, colId r = Some (c_id col)) (raindrops cache))
            = []) as Hnil.
    { apply elem_of_nil_inv. intros r Hr.
      apply list_elem_of_filter in Hr as [Hl Hr].
      apply list_elem_of_filter in Hr as [Hc Hr].
      apply Is_true_true, truthy_str_Some in Hl as (l & Hl & Hl').
      destruct (Hex r Hr Hc); congruence. }
    simpl. rewrite Hnil. by case_bool_decide.
Qed.

(** Group 12 of the fixture has one child, titled "Start Page". *)
Lemma C3_no_empty_group_witness :
  Safari.groupOf twoProfilesDb (mkIdTitle 12 (Some "Empty")) = None.
Proof.
  destruct C3_no_empty_group as (_ & _ & Hsafari & _).
  apply Hsafari. intros r Hr Hpar.
  unfold twoProfilesDb in Hr. simpl in Hpar.
  repeat (apply elem_of_cons in Hr as [->|Hr]; [try (simpl in Hpar; lia)|]).
  - do 3 right. exists "Start Page". split; [done|]. vm_compute. do 2 right. left.
  - by apply elem_of_nil in Hr.
Defined.

(** C4: with [id] a primary key, the groups of every profile are the
    groups of table rows whose ids strictly decrease along the list, and
    the tabs of every group are the titles and urls of that group's own
    child rows (the rows under the group's id that pass the tab query,
    each once), arranged so that [order_index] ascends along the list. *)
Theorem C4_ordering db p :
  primary_key db → p ∈ readProfiles db →
  ∃ gs : list IdTitle,
    profile_tabGroups p
    = (λ g, mkTabGroup (or_untitled (it_title g)) (tabsOf db (it_id g))) <$> gs ∧
    StronglySorted (λ a b, it_id b < it_id a) gs ∧
    (∀ g, g ∈ gs → ∃ r, r ∈ db ∧ g = select_id_title r ∧
                        row_subtype r = 0 ∧ 0 < row_num_children r) ∧
    (∀ g, g ∈ gs →
       ∃ rows : list BookmarkRow,
         tabsOf db (it_id g) = select_title_url <$> rows ∧
         StronglySorted (λ a b, row_order_index a ≤ row_order_index b) rows ∧
         rows ≡ₚ filter (tabWhere (it_id g)) db ∧
         ∀ r, r ∈ rows ↔ r ∈ db ∧ tabWhere (it_id g) r).
Proof.
  intros Hpk Hp.
  assert (∀ g : IdTitle,
            ∃ rows : list BookmarkRow,
              tabsOf db (it_id g) = select_title_url <$> rows ∧
              StronglySorted (λ a b, row_order_index a ≤ row_order_index b) rows ∧
              rows ≡ₚ filter (tabWhere (it_id g)) db ∧
              ∀ r, r ∈ rows ↔ r ∈ db ∧ tabWhere (it_id g) r) as Htabs.
  { intros g. exists (tabRows db (it_id g)). split_and!.
    - done.
    - apply tabRows_sorted.
    - apply merge_sort_Permutation.
    - intros r. rewrite elem_of_tabRows. tauto. }
  destruct (profile_groups _ _ Hp) as [Hpers|(prof & _ & Hprof)].
  - exists (filter (λ g, 0 < length (tabsOf db (it_id g)))%nat (personalGroups db)).
    split_and!.
    + by rewrite Hpers, pushGroups_filter.
    + apply StronglySorted_filter. by apply group_query_sorted.
    + intros g Hg. apply list_elem_of_filter in Hg as [_ Hg].
      apply group_query_elem in Hg as (r & Hr & Hw & ->).
      destruct Hw as (_ & _ & ? & ? & _). by exists r.
    + intros g _. apply Htabs.
  - exists (filter (λ g, 0 < length (tabsOf db (it_id g)))%nat
              (groupsOfProfile db (it_id prof))).
    split_and!.
    + by rewrite Hprof, pushGroups_filter.
    + apply StronglySorted_filter. by apply group_query_sorted.
    + intros g Hg. apply list_elem_of_filter in Hg as [_ Hg].
      apply group_query_elem in Hg as (r & Hr & Hw & ->).
      destruct Hw as (_ & ? & ?). by exists r.
    + intros g _. apply Htabs.
Qed.

(** On the fixture the Personal profile has the groups 7 and 5, in that
    order; group 5 holds the rows 6 ([order_index] 4) and 8 ([order_index]
    1), and its tabs come out as row 8, then row 6. *)
Lemma C4_ordering_witness :
  ∃ gs : list IdTitle,
    profile_tabGroups (personalProfile twoProfilesDb)
    = (λ g, mkTabGroup (or_untitled (it_title g)) (tabsOf twoProfilesDb (it_id g)))
        <$> gs ∧
    StronglySorted (λ a b, it_id b < it_id a) gs ∧
    (∀ g, g ∈ gs → ∃ r, r ∈ twoProfilesDb ∧ g = select_id_title r ∧
                        row_subtype r = 0 ∧ 0 < row_num_children r) ∧
    (∀ g, g ∈ gs →
       ∃ rows : list BookmarkRow,
         tabsOf twoProfilesDb (it_id g) = select_title_url <$> rows ∧
         StronglySorted (λ a b, row_order_index a ≤ row_order_index b) rows ∧
         rows ≡ₚ filter (tabWhere (it_id g)) twoProfilesDb ∧
         ∀ r, r ∈ rows ↔ r ∈ twoProfilesDb ∧ tabWhere (it_id g) r).
Proof.
  apply (C4_ordering twoProfilesDb (personalProfile twoProfilesDb)).
  - apply (bool_decide_unpack _). vm_compute. exact I.
  - rewrite readProfiles_cons. left.
Defined.

(** The fixture's Personal profile, evaluated: ids 7 then 5, and in group
    5 the tab of row 8 before the tab of row 6. *)
Example personal_profile_order :
  profile_tabGroups (personalProfile twoProfilesDb)
  = [ mkTabGroup "(untitled)" [ mkTab "Z" "https://z.example" ];
      mkTabGroup "Research" [ mkTab "First" "https://a.example";
                              mkTab "Second" "https://b.example" ] ].
Proof. reflexivity. Qed.

(** C9: the profile list starts with the profile named "Personal",
    whatever the table holds, and continues with one profile per marker
    row (subtype 2, non-empty title) in the order the marker query returns
    them, each named by its row's title and holding the groups found under
    that row's id. *)
Theorem C9_profiles db :
  ∃ personal rest,
    readProfiles db = personal :: rest ∧
    profile_name personal = "Personal" ∧
    Forall2 (λ r p,
               row_subtype r = 2 ∧
               row_title r = Some (profile_name p) ∧ profile_name p ≠ "" ∧
               profile_tabGroups p = pushGroups db (groupsOfProfile db (row_id r)))
            (filter profileWhere db) rest.
Proof.
  exists (personalProfile db), (profileEntry db <$> additionalProfiles db).
  split_and!; [apply readProfiles_cons|done|].
  unfold additionalProfiles. rewrite <- list_fmap_compose.
  apply Forall2_fmap_r, Forall_Forall2_diag, Forall_forall.
  intros r Hr. apply list_elem_of_filter in Hr as [(Hsub & t & Ht & Hne) _].
  simpl. rewrite Ht. done.
Qed.

End OutputClaims.

(** ** Cache refresher: the freshness rule *)

Section MonadLaws.
Import Sync.

Lemma bind_ok {A B} (m : M A) (k : A → M B) fs fs' a :
  m fs = (fs', Ok a) → bind m k fs = k a fs'.
Proof. unfold bind. by intros ->. Qed.

Lemma bind_throw {A B} (m : M A) (k : A → M B) fs fs' e :
  m fs = (fs', Throw e) → bind m k fs = (fs', Throw e).
Proof. unfold bind. by intros ->. Qed.

(** A loop whose body only reads is a fold. *)
Lemma foldM_pure {A B} (f : B → A → M B) (g : B → A → B) fs b l :
  (∀ b x, f b x fs = (fs, Ok (g b x))) →
  foldM f b l fs = (fs, Ok (foldl g b l)).
Proof.
  intros Hf. revert b. induction l as [|x l IH]; intros b; simpl; [done|].
  by rewrite (bind_ok _ _ _ _ _ (Hf b x)).
Qed.

Lemma statSync_Some p (fs : FS) f : fs !! p = Some f → statSync p fs = (fs, Ok f).
Proof. unfold statSync. by intros ->. Qed.

Lemma statSync_None p (fs : FS) : fs !! p = None → statSync p fs = (fs, Throw "ENOENT").
Proof. unfold statSync. by intros ->. Qed.

Lemma existsSync_Some p (fs : FS) f : fs !! p = Some f → existsSync p fs = (fs, Ok true).
Proof. unfold existsSync. by intros ->. Qed.

Lemma existsSync_None p (fs : FS) : fs !! p = None → existsSync p fs = (fs, Ok false).
Proof. unfold existsSync. by intros ->. Qed.

End MonadLaws.

Section Paths.
Import Sync.

Lemma app_ne_self (s a : string) : a ≠ "" → s +:+ a ≠ s.
Proof.
  intros Ha. induction s as [|c s IH]; simpl; [done|].
  intros [= H]. by apply IH.
Qed.

Lemma dbPaths_NoDup base : NoDup (dbPaths base).
Proof.
  unfold dbPaths. repeat constructor.
  - intros H. apply elem_of_cons in H as [H|H].
    + symmetry in H. by apply app_ne_self in H.
    + apply list_elem_of_singleton in H. symmetry in H. by apply app_ne_self in H.
  - intros H. apply list_elem_of_singleton in H.
    by apply (inj (String.app base)) in H.
  - by intros H%elem_of_nil.
Qed.

Lemma dbPaths_ne base :
  base ≠ base +:+ "-wal" ∧ base ≠ base +:+ "-shm" ∧
  base +:+ "-wal" ≠ base +:+ "-shm".
Proof.
  pose proof (dbPaths_NoDup base) as H. unfold dbPaths in H.
  apply NoDup_cons in H as [H1 H]. apply NoDup_cons in H as [H2 _].
  set_solver.
Qed.

End Paths.

Section FreshnessProps.
Import Sync.

Variable dbSource dbPath : string.
Variable now : Z.
Variable engine : Engine.

Lemma newestMtime_eq base (fs : FS) f :
  fs !! base = Some f →
  newestMtime base fs = (fs, Ok (foldl (newer fs base) (f_mtime f) ["-wal"; "-shm"])).
Proof.
  intros Hf. unfold newestMtime.
  rewrite (bind_ok _ _ _ _ _ (statSync_Some _ _ _ Hf)).
  apply foldM_pure. intros newest suffix. unfold newer.
  destruct (fs !! (base +:+ suffix)) as [f'|] eqn:Hs.
  - rewrite (bind_ok _ _ _ _ _ (existsSync_Some _ _ _ Hs)).
    by rewrite (bind_ok _ _ _ _ _ (statSync_Some _ _ _ Hs)).
  - by rewrite (bind_ok _ _ _ _ _ (existsSync_None _ _ Hs)).
Qed.

Lemma newest_is_max base (fs : FS) f :
  fs !! base = Some f →
  is_max (foldl (newer fs base) (f_mtime f) ["-wal"; "-shm"]) (mtimes fs base).
Proof.
  intros Hf. unfold is_max, mtimes, dbPaths, newer. simpl. rewrite Hf. simpl.
  destruct (fs !! (base +:+ "-wal")) as [w|];
    destruct (fs !! (base +:+ "-shm")) as [h|]; simpl;
    repeat case_bool_decide; split;
    try (intros x Hx; repeat (apply elem_of_cons in Hx as [->|Hx]; [lia|]);
         by apply elem_of_nil in Hx);
    set_solver.
Qed.

Lemma is_max_unique a b l : is_max a l → is_max b l → a = b.
Proof.
  intros [Ha Ha'] [Hb Hb']. specialize (Ha' b Hb). specialize (Hb' a Ha). lia.
Qed.


Hypothesis apart : dbPaths dbSource ## dbPaths dbPath.

Lemma source_ne_cache s c : s ∈ dbPaths dbSource → c ∈ dbPaths dbPath → c ≠ s.
Proof. intros Hs Hc ->. by apply (apart s). Qed.

Ltac paths_ne :=
  solve [ apply source_ne_cache; unfold dbPaths; set_solver
        | apply not_eq_sym, source_ne_cache; unfold dbPaths; set_solver ].

Lemma freshnessCheck_absent (fs : FS) :
  fs !! dbPath = None → freshnessCheck dbSource dbPath fs = (fs, Ok true).
Proof.
  intros Hc. unfold freshnessCheck.
  by rewrite (bind_ok _ _ _ _ _ (existsSync_None _ _ Hc)).
Qed.

Lemma freshnessCheck_present (fs : FS) src cached :
  fs !! dbSource = Some src → fs !! dbPath = Some cached →
  freshnessCheck dbSource dbPath fs
  = (fs, Ok (negb (bool_decide
       (foldl (newer fs dbSource) (f_mtime src) ["-wal"; "-shm"]
        ≤ foldl (newer fs dbPath) (f_mtime cached) ["-wal"; "-shm"])))).
Proof.
  intros Hs Hc. unfold freshnessCheck.
  rewrite (bind_ok _ _ _ _ _ (existsSync_Some _ _ _ Hc)).
  rewrite (bind_ok _ _ _ _ _ (newestMtime_eq _ _ _ Hs)).
  by rewrite (bind_ok _ _ _ _ _ (newestMtime_eq _ _ _ Hc)).
Qed.

(** With the cache present and the source missing the check throws. *)
Lemma freshnessCheck_source_missing (fs : FS) cached :
  fs !! dbSource = None → fs !! dbPath = Some cached →
  freshnessCheck dbSource dbPath fs = (fs, Throw "ENOENT").
Proof.
  intros Hs Hc. unfold freshnessCheck.
  rewrite (bind_ok _ _ _ _ _ (existsSync_Some _ _ _ Hc)).
  assert (newestMtime dbSource fs = (fs, Throw "ENOENT")) as Hn.
  { unfold newestMtime. by rewrite (bind_throw _ _ _ _ _ (statSync_None _ _ Hs)). }
  by rewrite (bind_throw _ _ _ _ _ Hn).
Qed.

Lemma copyFiles_eq (fs : FS) src :
  fs !! dbSource = Some src →
  copyFiles dbSource dbPath now fs
  = (copyOne now fs (dbSource +:+ "-shm") (dbPath +:+ "-shm")
       (copyOne now fs (dbSource +:+ "-wal") (dbPath +:+ "-wal")
          (<[dbPath := stamped now src]> fs)),
     Ok tt).
Proof.
  intros Hs. unfold copyFiles.
  assert (copyFileSync now dbSource dbPath fs
          = (<[dbPath := stamped now src]> fs, Ok tt)) as H0.
  { unfold copyFileSync. by rewrite Hs. }
  rewrite (bind_ok _ _ _ _ _ H0). clear H0.
  assert (∀ (fs' : FS) suffix,
            suffix ∈ ["-wal"; "-shm"] →
            fs' !! (dbSource +:+ suffix) = fs !! (dbSource +:+ suffix) →
            (let! ex := existsSync (dbSource +:+ suffix) in
             if (ex : bool)
             then copyFileSync now (dbSource +:+ suffix) (dbPath +:+ suffix)
             else ret tt) fs'
            = (copyOne now fs (dbSource +:+ suffix) (dbPath +:+ suffix) fs', Ok tt))
    as Hstep.
  { intros fs' suffix _ Hsame. unfold copyOne.
    destruct (fs !! (dbSource +:+ suffix)) as [f|] eqn:Hf.
    - rewrite (bind_ok _ _ _ _ _ (existsSync_Some _ _ _ Hsame)).
      unfold copyFileSync. by rewrite Hsame.
    - by rewrite (bind_ok _ _ _ _ _ (existsSync_None _ _ Hsame)). }
  unfold forM_. simpl.
  rewrite (bind_ok _ _ _ _ _ (Hstep (<[dbPath := stamped now src]> fs) "-wal"
    ltac:(set_solver) ltac:(by rewrite lookup_insert_ne by paths_ne))).
  rewrite (bind_ok _ _ _ _ _ (Hstep
    (copyOne now fs (dbSource +:+ "-wal") (dbPath +:+ "-wal") (<[dbPath := stamped now src]> fs))
    "-shm" ltac:(set_solver) ltac:(
      unfold copyOne; destruct (fs !! (dbSource +:+ "-wal"));
      by rewrite !lookup_insert_ne by paths_ne))).
  done.
Qed.


Lemma syncSafari_eq (fs fs1 : FS) (needsCopy : bool) :
  freshnessCheck dbSource dbPath fs = (fs, Ok needsCopy) →
  (if needsCopy then copyFiles dbSource dbPath now else ret tt) fs = (fs1, Ok tt) →
  syncSafari dbSource dbPath now engine fs
  = (let '(fs2, r) := try_finally (checkpoint dbPath engine)
                        (restoreTimestamps dbSource dbPath) fs1 in
     (fs2, match r with Ok _ => Ok needsCopy | Throw e => Throw e end)).
Proof.
  intros Hfresh Hcopy. unfold syncSafari.
  rewrite (bind_ok _ _ _ _ _ Hfresh), (bind_ok _ _ _ _ _ Hcopy).
  unfold bind. by destruct (try_finally _ _ fs1) as [fs2 [[]|e]].
Qed.

(** The freshness check in the presence of the source database. *)
Lemma freshness_decides (fs : FS) (src : File) :
  fs !! dbSource = Some src →
  ∃ needsCopy : bool,
    freshnessCheck dbSource dbPath fs = (fs, Ok needsCopy) ∧
    (fs !! dbPath = None → needsCopy = true) ∧
    (is_Some (fs !! dbPath) →
     ∀ srcMax cacheMax,
       is_max srcMax (mtimes fs dbSource) → is_max cacheMax (mtimes fs dbPath) →
       (needsCopy = false ↔ srcMax ≤ cacheMax)).
Proof.
  intros Hs. destruct (fs !! dbPath) as [cached|] eqn:Hc.
  - eexists. split; [by apply freshnessCheck_present|].
    split; [done|]. intros _ srcMax cacheMax Hsm Hcm.
    rewrite (is_max_unique _ _ _ Hsm (newest_is_max _ _ _ Hs)).
    rewrite (is_max_unique _ _ _ Hcm (newest_is_max _ _ _ Hc)).
    by rewrite negb_false_iff, bool_decide_eq_true.
  - exists true. split; [by apply freshnessCheck_absent|].
    split; [done|]. by intros [? [=]].
Qed.

(** The copy step: each source file present lands at its cache path. *)
Lemma copyFiles_lands (fs : FS) (src : File) :
  fs !! dbSource = Some src →
  ∃ fs1 : FS,
    copyFiles dbSource dbPath now fs = (fs1, Ok tt) ∧
    Forall2 (λ s c, ∀ f, fs !! s = Some f →
                         f_content <$> fs1 !! c = Some (f_content f))
            (dbPaths dbSource) (dbPaths dbPath) ∧
    ∀ p, p ∉ dbPaths dbPath → fs1 !! p = fs !! p.
Proof.
  intros Hs. eexists. split; [by apply copyFiles_eq|].
  pose proof (dbPaths_ne dbPath) as (Hn1 & Hn2 & Hn3). split.
  - unfold dbPaths, copyOne. repeat constructor; intros f Hf.
    + rewrite Hs in Hf. injection Hf as <-.
      destruct (fs !! (dbSource +:+ "-wal")), (fs !! (dbSource +:+ "-shm"));
        by rewrite ?lookup_insert_ne, lookup_insert_eq by done.
    + rewrite Hf. destruct (fs !! (dbSource +:+ "-shm"));
        by rewrite ?lookup_insert_ne, lookup_insert_eq by done.
    + rewrite Hf. by rewrite lookup_insert_eq.
  - intros p Hp. unfold dbPaths in Hp. unfold copyOne.
    assert (dbPath ≠ p ∧ dbPath +:+ "-wal" ≠ p ∧ dbPath +:+ "-shm" ≠ p)
      as (? & ? & ?) by set_solver.
    destruct (fs !! (dbSource +:+ "-wal")), (fs !! (dbSource +:+ "-shm"));
      by rewrite ?lookup_insert_ne by done.
Qed.

(** C2: with the source database in place, the freshness check never
    throws and its answer decides the run. With a cached database present,
    the copy is skipped exactly when the newest modification time among
    the source files that exist is at most the newest among the cached
    files that exist; with none it is never skipped. When the copy is not
    skipped, the cache path of the database and of each sibling present at
    the source holds the source's bytes afterwards, whatever it held
    before, and no other path is touched; when it is skipped, no file is
    touched before the checkpoint. *)
Theorem C2_freshness_rule (fs : FS) (src : File) :
  fs !! dbSource = Some src →
  ∃ (needsCopy : bool) (fs1 : FS),
    freshnessCheck dbSource dbPath fs = (fs, Ok needsCopy) ∧
    (if needsCopy then copyFiles dbSource dbPath now else ret tt) fs = (fs1, Ok tt) ∧
    syncSafari dbSource dbPath now engine fs
    = (let '(fs2, r) := try_finally (checkpoint dbPath engine)
                          (restoreTimestamps dbSource dbPath) fs1 in
       (fs2, match r with Ok _ => Ok needsCopy | Throw e => Throw e end)) ∧
    (fs !! dbPath = None → needsCopy = true) ∧
    (is_Some (fs !! dbPath) →
     ∀ srcMax cacheMax,
       is_max srcMax (mtimes fs dbSource) → is_max cacheMax (mtimes fs dbPath) →
       (needsCopy = false ↔ srcMax ≤ cacheMax)) ∧
    (needsCopy = false → fs1 = fs) ∧
    (needsCopy = true →
     Forall2 (λ s c, ∀ f, fs !! s = Some f →
                          f_content <$> fs1 !! c = Some (f_content f))
             (dbPaths dbSource) (dbPaths dbPath) ∧
     ∀ p, p ∉ dbPaths dbPath → fs1 !! p = fs !! p).
Proof.
  intros Hs.
  destruct (freshness_decides fs src Hs) as (needsCopy & Hfresh & Habsent & Hpresent).
  destruct needsCopy.
  - destruct (copyFiles_lands fs src Hs) as (fs1 & Hcopy & Hland & Hother).
    exists true, fs1. split_and!; try done. by apply syncSafari_eq.
  - exists false, fs. split_and!; try done. by apply syncSafari_eq.
Qed.

(** *** What the [finally] block achieves *)

Lemma putFile_other p o (fs : FS) q : p ≠ q → putFile p o fs !! q = fs !! q.
Proof.
  intros Hne. unfold putFile. destruct o.
  - by rewrite lookup_insert_ne.
  - by rewrite lookup_delete_ne.
Qed.

(** The engine touches the three cache paths only. *)
Lemma checkpoint_other (fs : FS) p :
  p ∉ dbPaths dbPath → (checkpoint dbPath engine fs).1 !! p = fs !! p.
Proof.
  intros Hp. unfold checkpoint, writeDbFiles.
  destruct (engine _) as [d ok]. simpl.
  unfold dbPaths in Hp.
  rewrite !putFile_other; [done|set_solver..].
Qed.

Lemma restoreTimestamps_eq (fs : FS) :
  restoreTimestamps dbSource dbPath fs
  = (restoreOne
       (restoreOne (restoreOne fs dbSource dbPath)
          (dbSource +:+ "-wal") (dbPath +:+ "-wal"))
       (dbSource +:+ "-shm") (dbPath +:+ "-shm"),
     Ok tt).
Proof.
  assert (∀ (fs' : FS) src dst,
            catch_ignore (
              let! e1 := existsSync src in
              let! e2 := existsSync dst in
              if (e1 : bool) && (e2 : bool)
              then let! st := statSync src in utimesSync dst (f_atime st) (f_mtime st)
              else ret tt) fs'
            = (restoreOne fs' src dst, Ok tt)) as Hstep.
  { intros fs' src dst. unfold catch_ignore, restoreOne.
    destruct (fs' !! src) as [s|] eqn:Hs; destruct (fs' !! dst) as [d|] eqn:Hd.
    - rewrite (bind_ok _ _ _ _ _ (existsSync_Some _ _ _ Hs)).
      rewrite (bind_ok _ _ _ _ _ (existsSync_Some _ _ _ Hd)). simpl.
      rewrite (bind_ok _ _ _ _ _ (statSync_Some _ _ _ Hs)).
      unfold utimesSync. by rewrite Hd.
    - rewrite (bind_ok _ _ _ _ _ (existsSync_Some _ _ _ Hs)).
      by rewrite (bind_ok _ _ _ _ _ (existsSync_None _ _ Hd)).
    - rewrite (bind_ok _ _ _ _ _ (existsSync_None _ _ Hs)).
      by rewrite (bind_ok _ _ _ _ _ (existsSync_Some _ _ _ Hd)).
    - rewrite (bind_ok _ _ _ _ _ (existsSync_None _ _ Hs)).
      by rewrite (bind_ok _ _ _ _ _ (existsSync_None _ _ Hd)). }
  unfold restoreTimestamps, forM_. simpl.
  by rewrite !(bind_ok _ _ _ _ _ (Hstep _ _ _)).
Qed.

Lemma restoreOne_other (fs : FS) src dst p :
  p ≠ dst → restoreOne fs src dst !! p = fs !! p.
Proof.
  intros Hne. unfold restoreOne.
  destruct (fs !! src), (fs !! dst); by rewrite ?lookup_insert_ne.
Qed.

Lemma restoreOne_dst (fs : FS) src dst s :
  src ≠ dst → fs !! src = Some s →
  restoreOne fs src dst !! dst
  = (λ d, {| f_content := f_content d; f_atime := f_atime s; f_mtime := f_mtime s |})
      <$> fs !! dst.
Proof.
  intros Hne Hs. unfold restoreOne. rewrite Hs.
  destruct (fs !! dst) as [d|] eqn:Hd; simpl; [|done].
  by rewrite lookup_insert_eq.
Qed.

(** The state a run ends in, whether or not the checkpoint threw. *)
Lemma syncSafari_state (fs : FS) src :
  fs !! dbSource = Some src →
  ∃ fs2 : FS,
    (∀ p, p ∉ dbPaths dbPath → fs2 !! p = fs !! p) ∧
    (syncSafari dbSource dbPath now engine fs).1
    = (restoreTimestamps dbSource dbPath fs2).1.
Proof.
  intros Hs.
  destruct (freshness_decides fs src Hs) as (needsCopy & Hfresh & _).
  assert (∃ fs1 : FS,
            (if needsCopy then copyFiles dbSource dbPath now else ret tt) fs
            = (fs1, Ok tt) ∧
            ∀ p, p ∉ dbPaths dbPath → fs1 !! p = fs !! p)
    as (fs1 & Hcopy & Hother).
  { destruct needsCopy.
    - destruct (copyFiles_lands fs src Hs) as (fs1 & ? & _ & ?). by exists fs1.
    - by exists fs. }
  pose proof (syncSafari_eq fs fs1 needsCopy Hfresh Hcopy) as Hrun.
  exists (checkpoint dbPath engine fs1).1. split.
  - intros p Hp. rewrite checkpoint_other by done. by apply Hother.
  - rewrite Hrun. unfold try_finally.
    destruct (checkpoint dbPath engine fs1) as [fs2 r]. simpl.
    rewrite restoreTimestamps_eq. by destruct r.
Qed.

End FreshnessProps.

(** ** Cache refresher: two runs in a row (C8) *)

Section TwoRuns.
Import Sync Fixtures.

Lemma fixture_paths_apart : dbPaths safariDb ## dbPaths cachedDb.
Proof.
  intros p Hs Hc. unfold dbPaths in *.
  repeat (apply elem_of_cons in Hs as [->|Hs]);
    repeat (apply elem_of_cons in Hc as [Hc|Hc]; [discriminate Hc|]);
    try (by apply elem_of_nil in Hc); by apply elem_of_nil in Hs.
Qed.

Lemma C2_freshness_rule_witness :
  ∃ (needsCopy : bool) (fs1 : FS),
    freshnessCheck safariDb cachedDb staleCacheFs = (staleCacheFs, Ok needsCopy) ∧
    (if needsCopy then copyFiles safariDb cachedDb 200 else ret tt) staleCacheFs
    = (fs1, Ok tt).
Proof.
  destruct (C2_freshness_rule safariDb cachedDb 200 idleEngine
              fixture_paths_apart staleCacheFs (mkFile "db-v2" 50 50))
    as (needsCopy & fs1 & Hcheck & Hcopy & _).
  - reflexivity.
  - by exists needsCopy, fs1.
Defined.

(** C8 fails on the code. First fixture: the source has a -wal newer than
    its database, the cache holds a database newer than both and no -wal.
    The first run finds the cache fresh and copies nothing, then puts the
    source database's older timestamp on the cached database; the second
    run, the source untouched, finds the cache stale and copies. Second
    fixture: no cache yet and an engine that removes -wal and -shm on
    close. The first run copies; the cached database is left alone with the
    source database's timestamp, older than the source -wal, and the
    second run copies again. *)
Theorem C8_second_run_copies :
  let run1 := syncSafari safariDb cachedDb 200 idleEngine staleSiblingFs in
  let run2 := syncSafari safariDb cachedDb 300 idleEngine run1.1 in
  let run1' := syncSafari safariDb cachedDb 200 tidyEngine liveSourceFs in
  let run2' := syncSafari safariDb cachedDb 300 tidyEngine run1'.1 in
  (run1.2 = Ok false ∧ run2.2 = Ok true ∧
   Forall (λ p, run1.1 !! p = staleSiblingFs !! p) (dbPaths safariDb)) ∧
  (run1'.2 = Ok true ∧ run2'.2 = Ok true ∧
   Forall (λ p, run1'.1 !! p = liveSourceFs !! p) (dbPaths safariDb)).
Proof.
  split; (split_and!; [by vm_compute|by vm_compute|]);
    unfold dbPaths; repeat constructor; by vm_compute.
Qed.

(** With an engine that keeps the cached siblings, and source timestamps
    that are whole milliseconds as in the fixture, the run from an empty
    cache is followed by a fresh one. *)
Example two_runs_siblings_kept :
  let run1 := syncSafari safariDb cachedDb 200 idleEngine liveSourceFs in
  let run2 := syncSafari safariDb cachedDb 300 idleEngine run1.1 in
  run1.2 = Ok true ∧ run2.2 = Ok false.
Proof. split; by vm_compute. Qed.

End TwoRuns.

(** ** The paginated sweep (C7) *)

Section Pagination.
Import Sync.
Context {A : Type}.
Variable server : Server A.
Variable pages : nat → list A.

Local Open Scope nat_scope.

Lemma fetchLoop_spec (n : nat) :
  ∀ page all log fuel,
    (∀ j, j ≤ n → server (page + j) = Ok (pages (page + j))) →
    (∀ j, j < n → ¬ length (pages (page + j)) < 50) →
    length (pages (page + n)) < 50 →
    n < fuel →
    fetchLoop server fuel page all log
    = Some (log ++ seq page (S n), Ok (all ++ concat (pages <$> seq page (S n)))).
Proof.
  induction n as [|n IH]; intros page all log fuel Hok Hfull Hshort Hfuel.
  - destruct fuel as [|fuel]; [lia|]. simpl.
    rewrite <- (Nat.add_0_r page) at 1. rewrite (Hok 0) by lia.
    rewrite !Nat.add_0_r in *. rewrite app_nil_r.
    case_bool_decide as Hz.
    + apply nil_length_inv in Hz. by rewrite Hz, app_nil_r.
    + by rewrite bool_decide_eq_true_2.
  - destruct fuel as [|fuel]; [lia|]. simpl.
    rewrite <- (Nat.add_0_r page) at 1. rewrite (Hok 0) by lia.
    pose proof (Hfull 0 ltac:(lia)) as H0. rewrite !Nat.add_0_r in *.
    rewrite bool_decide_eq_false_2 by lia.
    rewrite bool_decide_eq_false_2 by done.
    rewrite (IH (S page) _ _ fuel).
    + by rewrite <- !app_assoc.
    + intros j Hj. replace (S page + j) with (page + S j) by lia. apply Hok. lia.
    + intros j Hj. replace (S page + j) with (page + S j) by lia. apply Hfull. lia.
    + by replace (S page + n) with (page + S n) by lia.
    + lia.
Qed.

Lemma length_concat_full (k : nat) :
  (∀ j, j < k → length (pages j) = 50) →
  length (concat (pages <$> seq 0 k)) = 50 * k.
Proof.
  induction k as [|k IH]; intros Hfull; [done|].
  rewrite seq_S, fmap_app, concat_app, length_app, IH by (intros; apply Hfull; lia).
  simpl. rewrite app_nil_r, Hfull by lia. lia.
Qed.

(** C7: let page [k] be the first the server answers with fewer than 50
    items, every page up to [k] answered without error. Then the sweep,
    given room for [k + 1] turns, requests exactly the pages 0, 1, ..., k
    in that order, stops there, and returns their items concatenated in
    that order. Each page before page [k] holds at least 50 items; with a
    server that returns no more than the 50 items asked for, each holds
    exactly 50, and the result has [50 * k] items and those of page [k]. *)
Theorem C7_pagination (k fuel : nat) :
  (∀ j, j ≤ k → server j = Ok (pages j)) →
  (∀ j, j < k → ¬ length (pages j) < 50) →
  length (pages k) < 50 →
  k < fuel →
  fetchAllRaindrops server fuel
  = Some (seq 0 (S k), Ok (concat (pages <$> seq 0 (S k)))) ∧
  (∀ j, j < k → 50 ≤ length (pages j)) ∧
  ((∀ j, j < k → length (pages j) ≤ 50) →
   (∀ j, j < k → length (pages j) = 50) ∧
   length (concat (pages <$> seq 0 (S k))) = 50 * k + length (pages k)).
Proof.
  intros Hok Hfull Hshort Hfuel. split_and!.
  - unfold fetchAllRaindrops. by rewrite (fetchLoop_spec k 0 [] [] fuel).
  - intros j Hj. specialize (Hfull j Hj). lia.
  - intros Hcap.
    assert (∀ j, j < k → length (pages j) = 50) as Hexact.
    { intros j Hj. specialize (Hcap j Hj). specialize (Hfull j Hj). lia. }
    split; [done|].
    rewrite seq_S, fmap_app, concat_app, length_app, length_concat_full by done.
    simpl. by rewrite app_nil_r.
Qed.

End Pagination.

Section PaginationWitness.
Import Sync Fixtures.

Lemma C7_pagination_witness :
  fetchAllRaindrops threePageServer 3
  = Some (seq 0 3, Ok (concat (threePages <$> seq 0 3))).
Proof.
  apply (C7_pagination threePageServer threePages 2 3).
  - intros j Hj. reflexivity.
  - intros j Hj. unfold threePages. rewrite bool_decide_eq_true_2 by lia.
    rewrite length_replicate. lia.
  - vm_compute. lia.
  - lia.
Defined.

End PaginationWitness.

(** ** Listing command (C6) *)

Section AggregatorProps.
Import Aggregator Fixtures.

Lemma foldl_sourceTask (ts : list Proc) (st : State) :
  foldl sourceTask st ts
  = {| allProfiles := allProfiles st ++ concat (contribution <$> ts);
       sourcesFailed := sourcesFailed st + length (filter failed ts) |}.
Proof.
  revert st. induction ts as [|p ts IH]; intros [ps n]; simpl.
  - by rewrite app_nil_r, Nat.add_0_r.
  - rewrite IH. unfold sourceTask, contribution, failed. rewrite filter_cons.
    case_bool_decide; case_decide; try done; simpl; f_equal; try lia.
    by rewrite <- app_assoc.
Qed.

Lemma filter_length_all {X} (P : X → Prop) `{∀ x, Decision (P x)} (l : list X) :
  length (filter P l) = length l ↔ Forall P l.
Proof.
  induction l as [|x l IH]; [by split; [constructor|]|].
  rewrite filter_cons, Forall_cons. pose proof (length_filter P l) as Hle.
  case_decide as Hx; simpl.
  - rewrite <- IH. split; [intros [= ?]; by split|intros [_ ->]; done].
  - split; [intros Heq; rewrite Heq in Hle; lia|by intros [? _]].
Qed.

Lemma tasks_length flags safari raindrop raindropFirst :
  length (tasks flags safari raindrop raindropFirst) = sourcesRequested flags.
Proof.
  unfold tasks, sourcesRequested.
  by destruct (wantSafari flags), (wantRaindrop flags), raindropFirst.
Qed.

(** C6: the command ends with the all-sources-failed error, exit code 1,
    exactly when every requested source failed. Otherwise it ends with
    exit code 0 and prints the profiles of the requested sources joined in
    the order the sources finished, each source that failed counting for
    none. At least one source is always requested. *)
Theorem C6_aggregate flags safari raindrop raindropFirst :
  let ts := tasks (defaultSources flags) safari raindrop raindropFirst in
  let out := aggregate flags safari raindrop raindropFirst in
  ts ≠ [] ∧
  (out = AllSourcesFailed ↔ Forall failed ts) ∧
  (exit_code out ≠ 0 ↔ Forall failed ts) ∧
  (Exists (λ p, exitCode p = 0) ts →
   exit_code out = 0 ∧ out = Printed (concat (contribution <$> ts))).
Proof.
  intros ts out.
  assert (out = if bool_decide (Forall failed ts) then AllSourcesFailed
                else Printed (concat (contribution <$> ts))) as Hout.
  { unfold out, aggregate. fold ts. rewrite foldl_sourceTask. simpl.
    rewrite <- (tasks_length _ safari raindrop raindropFirst). fold ts.
    apply (f_equal (λ b : bool, if b then AllSourcesFailed else Printed (concat (contribution <$> ts)))).
    apply bool_decide_ext, filter_length_all. }
  split_and!.
  - unfold ts, tasks, defaultSources.
    destruct flags as [[] []], raindropFirst; simpl; discriminate.
  - rewrite Hout. case_bool_decide; [done|]. by split.
  - rewrite Hout. case_bool_decide; simpl; [done|]. by split.
  - intros Hex. rewrite Hout. rewrite bool_decide_eq_false_2; [done|].
    intros Hall. apply Exists_exists in Hex as (p & Hp & H0).
    rewrite Forall_forall in Hall. by apply (Hall p Hp).
Qed.

Lemma C6_aggregate_witness :
  exit_code (aggregate (mkFlags false false) safariOk raindropDown false) = 0 ∧
  aggregate (mkFlags false false) safariOk raindropDown false
  = Printed (concat (contribution <$> [safariOk; raindropDown])).
Proof.
  destruct (C6_aggregate (mkFlags false false) safariOk raindropDown false)
    as (_ & _ & _ & Hsome).
  apply Hsome. apply Exists_cons_hd. reflexivity.
Defined.

End AggregatorProps.

(** * Further properties *)

(** ** Raindrop normaliser: what the grouping amounts to *)

Section RaindropMore.
Import Raindrop RaindropView Fixtures.

Lemma raindrop_groupOf_spec cache col :
  Raindrop.groupOf (titleById (collections cache))
    (raindropsByCollection (raindrops cache)) col
  = match linkedItemsOf cache col with
    | [] => None
    | items => Some (mkTabGroup (fullTitle (titleById (collections cache)) col)
                                (tabOfItem <$> items))
    end.
Proof.
  unfold Raindrop.groupOf, linkedItemsOf.
  rewrite raindropsByCollection_lookup, list_filter_filter.
  case_bool_decide as Hlen.
  - apply nil_length_inv in Hlen. rewrite <- list_filter_filter, Hlen. done.
  - clear Hlen.
    destruct (filter (λ r, hasLink r ∧ _) (raindrops cache)) as [|r rs]; [done|].
    rewrite bool_decide_eq_true_2 by (rewrite length_fmap; simpl; lia). done.
Qed.

(** X1: the output has one group per collection that has at least one
    item with a link, in the order of the cached collections; the group's
    tabs are that collection's linked items in the order of the cached
    items. *)
Theorem X1_raindrop_groups cache :
  toTabGroups cache
  = [ mkProfile "Raindrop.io"
        (omap (λ col,
                 match linkedItemsOf cache col with
                 | [] => None
                 | items =>
                     Some (mkTabGroup (fullTitle (titleById (collections cache)) col)
                                      (tabOfItem <$> items))
                 end)
              (collections cache)) ].
Proof.
  unfold toTabGroups. rewrite tabGroupsOf_omap. do 2 f_equal.
  apply list_omap_ext, Forall2_same_length_lookup. split; [done|].
  intros i x y Hx Hy. rewrite Hx in Hy. injection Hy as <-.
  apply raindrop_groupOf_spec.
Qed.

(** X2: no linked item of a fetched collection is lost: it is a tab of a
    group that carries the collection's display name. *)
Theorem X2_raindrop_item_kept cache col r :
  col ∈ collections cache → r ∈ raindrops cache →
  colId r = Some (c_id col) → hasLink r →
  ∃ p g, p ∈ toTabGroups cache ∧ g ∈ profile_tabGroups p ∧
    group_name g = fullTitle (titleById (collections cache)) col ∧
    tabOfItem r ∈ group_tabs g.
Proof.
  intros Hcol Hr Hid Hlink.
  eexists _, (mkTabGroup (fullTitle (titleById (collections cache)) col)
                (tabOfItem <$> linkedItemsOf cache col)).
  split; [unfold toTabGroups; apply list_elem_of_singleton; reflexivity|].
  simpl. split_and!; [|done|].
  - rewrite tabGroupsOf_omap. apply list_elem_of_omap. exists col.
    split; [done|]. rewrite raindrop_groupOf_spec.
    destruct (linkedItemsOf cache col) as [|x xs] eqn:Hl; [|done].
    assert (r ∈ linkedItemsOf cache col) as Hin
      by (by apply list_elem_of_filter).
    rewrite Hl in Hin. by apply elem_of_nil in Hin.
  - apply list_elem_of_fmap_2. by apply list_elem_of_filter.
Qed.

Lemma X2_raindrop_item_kept_witness :
  ∃ p g, p ∈ toTabGroups (mkCache [devTools; frameworks] [react; strayItem]) ∧
    g ∈ profile_tabGroups p ∧
    group_name g = fullTitle (titleById [devTools; frameworks]) frameworks ∧
    tabOfItem react ∈ group_tabs g.
Proof.
  apply (X2_raindrop_item_kept (mkCache [devTools; frameworks] [react; strayItem])
           frameworks react).
  - simpl. right. left.
  - simpl. left.
  - reflexivity.
  - exact I.
Defined.

(** X3: an item filed under a collection id that is not among the fetched
    collections is silently left out: the output is the same with and
    without it. *)
Theorem X3_raindrop_orphan_item cols (rs1 rs2 : list Item) (r : Item) k :
  colId r = Some k → (∀ col, col ∈ cols → c_id col ≠ k) →
  toTabGroups (mkCache cols (rs1 ++ r :: rs2))
  = toTabGroups (mkCache cols (rs1 ++ rs2)).
Proof.
  intros Hk Hnone. unfold toTabGroups. rewrite !tabGroupsOf_omap. simpl.
  do 2 f_equal. apply list_omap_ext, Forall2_same_length_lookup.
  split; [done|]. intros i x y Hx Hy. rewrite Hx in Hy. injection Hy as <-.
  pose proof (raindrop_groupOf_spec (mkCache cols (rs1 ++ r :: rs2)) x) as H1.
  pose proof (raindrop_groupOf_spec (mkCache cols (rs1 ++ rs2)) x) as H2.
  simpl in H1, H2. rewrite H1, H2. unfold linkedItemsOf. simpl.
  rewrite !filter_app, filter_cons_False; [done|].
  intros [_ Hc]. rewrite Hk in Hc. injection Hc as ->.
  apply (Hnone x); [|done]. by eapply list_elem_of_lookup_2.
Qed.

Lemma X3_raindrop_orphan_item_witness :
  toTabGroups (mkCache [devTools; frameworks] ([react] ++ orphanItem :: []))
  = toTabGroups (mkCache [devTools; frameworks] ([react] ++ [])).
Proof.
  apply (X3_raindrop_orphan_item [devTools; frameworks] [react] [] orphanItem 99).
  - reflexivity.
  - intros col Hcol. repeat (apply elem_of_cons in Hcol as [->|Hcol]; [discriminate|]).
    by apply elem_of_nil in Hcol.
Defined.

End RaindropMore.

(** ** Safari reader: nothing eligible is lost, no name is empty *)

Section SafariMore.
Import Safari Fixtures.

Lemma group_kept db (P : BookmarkRow → Prop) `{∀ r, Decision (P r)} g c :
  g ∈ db → P g → c ∈ db → tabWhere (row_id g) c →
  ∃ tg, tg ∈ pushGroups db (select_id_title <$> merge_sort id_desc (filter P db)) ∧
    group_name tg = or_untitled (row_title g) ∧
    select_title_url c ∈ group_tabs tg.
Proof.
  intros Hg HP Hc Hw.
  assert (select_title_url c ∈ tabsOf db (row_id g)) as Hin.
  { unfold tabsOf. apply list_elem_of_fmap_2. by apply elem_of_tabRows. }
  exists (mkTabGroup (or_untitled (row_title g)) (tabsOf db (row_id g))).
  split_and!; [|done|done].
  rewrite pushGroups_omap. apply list_elem_of_omap.
  exists (select_id_title g). split.
  - apply list_elem_of_fmap_2. rewrite merge_sort_Permutation.
    by apply list_elem_of_filter.
  - unfold Safari.groupOf. simpl. rewrite bool_decide_eq_true_2; [done|].
    destruct (tabsOf db (row_id g)); [by apply elem_of_nil in Hin|simpl; lia].
Qed.

(** X4: no eligible tab is lost. A row that passes the tab query under a
    root group row is a tab of a group of the first profile, named by the
    group row's title (or "(untitled)"); the same holds under a group row
    of an additional profile, in the profile named by the marker row. *)
Theorem X4_safari_tab_kept db :
  (∀ g c,
     g ∈ db → personalGroupWhere g → c ∈ db → tabWhere (row_id g) c →
     ∃ p tg, head (readProfiles db) = Some p ∧ tg ∈ profile_tabGroups p ∧
       group_name tg = or_untitled (row_title g) ∧
       select_title_url c ∈ group_tabs tg) ∧
  (∀ m g c,
     m ∈ db → profileWhere m →
     g ∈ db → profileGroupWhere (row_id m) g → c ∈ db → tabWhere (row_id g) c →
     ∃ p tg, p ∈ readProfiles db ∧ row_title m = Some (profile_name p) ∧
       tg ∈ profile_tabGroups p ∧
       group_name tg = or_untitled (row_title g) ∧
       select_title_url c ∈ group_tabs tg).
Proof.
  split.
  - intros g c Hg HP Hc Hw.
    destruct (group_kept db personalGroupWhere g c Hg HP Hc Hw) as (tg & ? & ? & ?).
    exists (personalProfile db), tg. by rewrite readProfiles_cons.
  - intros m g c Hm Hpw Hg HP Hc Hw.
    destruct (group_kept db (profileGroupWhere (row_id m)) g c Hg HP Hc Hw)
      as (tg & ? & ? & ?).
    exists (profileEntry db (select_id_title m)), tg. split_and!; try done.
    + rewrite readProfiles_cons. right. apply list_elem_of_fmap_2.
      unfold additionalProfiles. apply list_elem_of_fmap_2.
      by apply list_elem_of_filter.
    + simpl. destruct Hpw as (_ & t & -> & _). done.
Qed.

Lemma X4_safari_tab_kept_witness :
  ∃ p tg, head (readProfiles researchDb) = Some p ∧ tg ∈ profile_tabGroups p ∧
    group_name tg = "Research" ∧
    mkTab "Example" "https://example.com" ∈ group_tabs tg.
Proof.
  destruct (X4_safari_tab_kept researchDb) as [Hroot _].
  apply (Hroot (mkRow 5 0 1 0 (Some "Research") None 1 0 0)
               (mkRow 6 5 0 0 (Some "Example") (Some "https://example.com") 0 0 0)).
  - left.
  - by vm_compute.
  - right. left.
  - split; [done|]. split.
    + by exists "https://example.com".
    + exists "Example". split; [done|]. apply (bool_decide_unpack _). by vm_compute.
Defined.

(** X5: in the reader's output no profile name and no group name is the
    empty string: profiles are "Personal" or carry a marker row's non-empty
    title, and a group whose title is NULL or empty is named
    "(untitled)". *)
Theorem X5_safari_names_nonempty db p :
  p ∈ readProfiles db →
  profile_name p ≠ "" ∧ ∀ g, g ∈ profile_tabGroups p → group_name g ≠ "".
Proof.
  intros Hp. split.
  - rewrite readProfiles_cons in Hp. apply elem_of_cons in Hp as [->|Hp]; [done|].
    apply list_elem_of_fmap in Hp as (prof & -> & Hprof).
    unfold additionalProfiles in Hprof.
    apply list_elem_of_fmap in Hprof as (r & -> & Hr).
    apply list_elem_of_filter in Hr as [(_ & t & Ht & Hne) _].
    simpl. by rewrite Ht.
  - intros g Hg.
    assert (∃ gs, profile_tabGroups p = pushGroups db gs) as [gs Hgs].
    { destruct (profile_groups _ _ Hp) as [?|(prof & _ & ?)]; eauto. }
    rewrite Hgs, pushGroups_omap in Hg.
    apply list_elem_of_omap in Hg as (ig & _ & Hgo).
    apply safari_groupOf_Some in Hgo as [-> _]. apply or_untitled_nonempty.
Qed.

Lemma X5_safari_names_nonempty_witness :
  profile_name (personalProfile twoProfilesDb) ≠ "" ∧
  ∀ g, g ∈ profile_tabGroups (personalProfile twoProfilesDb) → group_name g ≠ "".
Proof.
  apply (X5_safari_names_nonempty twoProfilesDb).
  rewrite readProfiles_cons. left.
Defined.

End SafariMore.

(** ** Text mode *)

Section RenderProps.
Import Render.

Lemma renderText_nil_iff (ps : list Profile) :
  (∀ p g, p ∈ ps → g ∈ profile_tabGroups p → group_tabs g ≠ []) →
  renderText ps = [] ↔ ∀ p, p ∈ ps → profile_tabGroups p = [].
Proof.
  intros Hne. unfold renderText. split.
  - intros Hnil p Hp.
    destruct (profile_tabGroups p) as [|g gs] eqn:Hgs; [done|exfalso].
    assert (g ∈ profile_tabGroups p) as Hg by (rewrite Hgs; left).
    destruct (group_tabs g) as [|t ts] eqn:Hts; [by apply (Hne p g)|].
    assert (tabLine p g t ∈ ([] : list string)) as Hin; [|by apply elem_of_nil in Hin].
    rewrite <- Hnil. apply list_elem_of_bind. exists p. split; [|done].
    apply list_elem_of_bind. exists g. split; [|done].
    rewrite Hts. left.
  - intros Hall. apply elem_of_nil_inv. intros line Hin.
    apply list_elem_of_bind in Hin as (p & Hin & Hp).
    rewrite (Hall p Hp) in Hin. by apply elem_of_nil in Hin.
Qed.

Lemma renderText_length (ps : list Profile) :
  length (renderText ps)
  = length (ps ≫= λ p, profile_tabGroups p ≫= group_tabs).
Proof.
  unfold renderText. induction ps as [|p ps IH]; [done|].
  rewrite !bind_cons, !length_app, IH. f_equal.
  induction (profile_tabGroups p) as [|g gs IHg]; [done|].
  by rewrite !bind_cons, !length_app, IHg, length_fmap.
Qed.

(** X6: in text mode each reader prints one line per tab of its output,
    and prints nothing at all exactly when no profile has a tab group: a
    profile without groups, which the JSON output lists, leaves no trace
    in text mode. *)
Theorem X6_text_mode_lines :
  (∀ db,
     length (renderText (Safari.readProfiles db))
     = length (Safari.readProfiles db ≫= λ p, profile_tabGroups p ≫= group_tabs) ∧
     (renderText (Safari.readProfiles db) = [] ↔
      ∀ p, p ∈ Safari.readProfiles db → profile_tabGroups p = [])) ∧
  (∀ cache,
     length (renderText (Raindrop.toTabGroups cache))
     = length (Raindrop.toTabGroups cache ≫= λ p, profile_tabGroups p ≫= group_tabs) ∧
     (renderText (Raindrop.toTabGroups cache) = [] ↔
      ∀ p, p ∈ Raindrop.toTabGroups cache → profile_tabGroups p = [])).
Proof.
  split.
  - intros db. split; [apply renderText_length|].
    apply renderText_nil_iff. intros p g Hp Hg.
    assert (∃ gs, profile_tabGroups p = Safari.pushGroups db gs) as [gs Hgs].
    { destruct (profile_groups _ _ Hp) as [?|(prof & _ & ?)]; eauto. }
    rewrite Hgs, pushGroups_omap in Hg.
    apply list_elem_of_omap in Hg as (ig & _ & Hgo).
    by apply safari_groupOf_Some in Hgo as [_ ?].
  - intros cache. split; [apply renderText_length|].
    apply renderText_nil_iff. intros p g Hp Hg.
    destruct (elem_of_raindrop_output _ _ _ Hp Hg) as (col & _ & Hgo).
    by apply groupOf_Some in Hgo as (_ & _ & ?).
Qed.

End RenderProps.

(** ** Cache refresher: what a run leaves alone, and when it throws *)

Section Frames.
Import Sync SyncView.

Context (P : string → Prop).

Lemma frames_ret {A} (a : A) : frames P (ret a).
Proof. by intros fs p _. Qed.

Lemma frames_bind {A B} (m : M A) (k : A → M B) :
  frames P m → (∀ a, frames P (k a)) → frames P (bind m k).
Proof.
  intros Hm Hk fs p Hp. unfold bind. specialize (Hm fs p Hp).
  destruct (m fs) as [fs' [a|e]]; simpl in *; [|done].
  by rewrite (Hk a fs' p Hp).
Qed.

Lemma frames_existsSync q : frames P (existsSync q).
Proof. by intros fs p _. Qed.

Lemma frames_statSync q : frames P (statSync q).
Proof. intros fs p _. unfold statSync. by destruct (fs !! q). Qed.

Lemma frames_copyFileSync now src dst : ¬ P dst → frames P (copyFileSync now src dst).
Proof.
  intros Hdst fs p Hp. unfold copyFileSync. destruct (fs !! src); [|done].
  simpl. rewrite lookup_insert_ne; [done|]. by intros ->.
Qed.

Lemma frames_utimesSync q atime mtime : ¬ P q → frames P (utimesSync q atime mtime).
Proof.
  intros Hq fs p Hp. unfold utimesSync. destruct (fs !! q); [|done].
  simpl. rewrite lookup_insert_ne; [done|]. by intros ->.
Qed.

Lemma frames_catch_ignore (m : M unit) : frames P m → frames P (catch_ignore m).
Proof.
  intros Hm fs p Hp. unfold catch_ignore. specialize (Hm fs p Hp).
  by destruct (m fs).
Qed.

Lemma frames_try_finally {A} (body : M A) (fin : M unit) :
  frames P body → frames P fin → frames P (try_finally body fin).
Proof.
  intros Hb Hf fs p Hp. unfold try_finally. specialize (Hb fs p Hp).
  destruct (body fs) as [fs' r]. specialize (Hf fs' p Hp).
  destruct (fin fs') as [fs'' [[]|e]]; simpl in *; congruence.
Qed.

Lemma frames_foldM {A B} (f : B → A → M B) (b : B) (l : list A) :
  (∀ b x, x ∈ l → frames P (f b x)) → frames P (foldM f b l).
Proof.
  revert b. induction l as [|x l IH]; intros b Hf; simpl; [apply frames_ret|].
  apply frames_bind; [apply Hf; left|].
  intros b'. apply IH. intros b'' y Hy. apply Hf. by right.
Qed.

Lemma frames_checkpoint dbPath engine :
  (∀ p, P p → p ∉ dbPaths dbPath) → frames P (checkpoint dbPath engine).
Proof.
  intros HP fs p Hp. specialize (HP p Hp).
  unfold checkpoint, writeDbFiles. destruct (engine _) as [d ok]. simpl.
  unfold dbPaths in HP. apply not_elem_of_cons in HP as [H1 HP].
  apply not_elem_of_cons in HP as [H2 HP]. apply not_elem_of_cons in HP as [H3 _].
  by rewrite !putFile_other.
Qed.

End Frames.

Section SyncSafariMore.
Import Sync SyncView Fixtures.

Variable dbSource dbPath : string.
Variable now : Z.
Variable engine : Engine.

(** In the model a run leaves the record of every file outside the three
    cache paths as it was. *)
Lemma syncSafari_frames :
  frames (λ p, p ∉ dbPaths dbPath) (syncSafari dbSource dbPath now engine).
Proof.
  assert (∀ q, q ∈ dbPaths dbPath → ¬ (q ∉ dbPaths dbPath)) as Hin by (intros q Hq Hn; done).
  assert (dbPath ∈ dbPaths dbPath ∧ dbPath +:+ "-wal" ∈ dbPaths dbPath ∧
          dbPath +:+ "-shm" ∈ dbPaths dbPath) as (Hc1 & Hc2 & Hc3)
    by (unfold dbPaths; split_and!; repeat constructor).
  unfold syncSafari. apply frames_bind.
  { unfold freshnessCheck. apply frames_bind; [apply frames_existsSync|].
    intros []; [|apply frames_ret].
    assert (∀ base, frames (λ p, p ∉ dbPaths dbPath) (newestMtime base)) as Hn.
    { intros base. unfold newestMtime. apply frames_bind; [apply frames_statSync|].
      intros st. apply frames_foldM. intros newest suffix _.
      apply frames_bind; [apply frames_existsSync|].
      intros []; [|apply frames_ret].
      apply frames_bind; [apply frames_statSync|]. intros ?. apply frames_ret. }
    apply frames_bind; [apply Hn|]. intros ?.
    apply frames_bind; [apply Hn|]. intros ?. apply frames_ret. }
  intros needsCopy. apply frames_bind.
  { destruct needsCopy; [|apply frames_ret]. unfold copyFiles.
    apply frames_bind; [by apply frames_copyFileSync, Hin|]. intros _.
    unfold forM_. apply frames_foldM. intros _ suffix Hs.
    apply frames_bind; [apply frames_existsSync|].
    intros []; [|apply frames_ret].
    apply frames_copyFileSync, Hin.
    repeat (apply elem_of_cons in Hs as [->|Hs]; [done|]). by apply elem_of_nil in Hs. }
  intros _. apply frames_bind; [|intros ?; apply frames_ret].
  apply frames_try_finally; [by apply frames_checkpoint|].
  unfold restoreTimestamps, forM_. apply frames_foldM. intros _ [src dst] Hs.
  apply frames_catch_ignore.
  apply frames_bind; [apply frames_existsSync|]. intros e1.
  apply frames_bind; [apply frames_existsSync|]. intros e2.
  destruct (e1 && e2); [|apply frames_ret].
  apply frames_bind; [apply frames_statSync|]. intros st.
  apply frames_utimesSync, Hin.
  repeat (apply elem_of_cons in Hs as [[= -> ->]|Hs]; [done|]).
  by apply elem_of_nil in Hs.
Qed.

(** X7: a run of [syncSafari] writes nothing outside the three cache
    paths, whatever the engine does and whether or not the run throws: the
    source database and its siblings, and every other file, exist or not
    as before, with the content and the modification time they had. *)
Theorem X7_sync_touches_cache_only (fs : FS) (p : string) :
  p ∉ dbPaths dbPath →
  let fs' := (syncSafari dbSource dbPath now engine fs).1 in
  f_content <$> fs' !! p = f_content <$> fs !! p ∧
  f_mtime <$> fs' !! p = f_mtime <$> fs !! p.
Proof.
  intros Hp fs'. unfold fs'. by rewrite (syncSafari_frames fs p Hp).
Qed.

(** X8: with the source database missing a run throws ENOENT and leaves
    every file as it was, the cache included: the database engine is never
    reached. *)
Theorem X8_sync_source_missing (fs : FS) :
  fs !! dbSource = None →
  syncSafari dbSource dbPath now engine fs = (fs, Throw "ENOENT").
Proof.
  intros Hs. unfold syncSafari.
  destruct (fs !! dbPath) as [cached|] eqn:Hc.
  - by rewrite (bind_throw _ _ _ _ _
                  (freshnessCheck_source_missing dbSource dbPath fs cached Hs Hc)).
  - rewrite (bind_ok _ _ _ _ _ (freshnessCheck_absent dbSource dbPath fs Hc)).
    assert (copyFiles dbSource dbPath now fs = (fs, Throw "ENOENT")) as Hcopy.
    { unfold copyFiles.
      assert (copyFileSync now dbSource dbPath fs = (fs, Throw "ENOENT")) as H0
        by (unfold copyFileSync; by rewrite Hs).
      by rewrite (bind_throw _ _ _ _ _ H0). }
    by rewrite (bind_throw _ _ _ _ _ Hcopy).
Qed.

End SyncSafariMore.

Section SyncSafariMoreWitnesses.
Import Sync Fixtures.

(** The source database of the fixture after a run that copied it, with an
    engine that removes the cached siblings. *)
Lemma X7_sync_touches_cache_only_witness :
  let fs' := (syncSafari safariDb cachedDb 200 tidyEngine liveSourceFs).1 in
  f_content <$> fs' !! safariDb = Some "db" ∧
  f_mtime <$> fs' !! safariDb = Some 50.
Proof.
  apply (X7_sync_touches_cache_only safariDb cachedDb 200 tidyEngine
           liveSourceFs safariDb).
  intros H. unfold dbPaths in H.
  repeat (apply elem_of_cons in H as [H|H]; [discriminate H|]).
  by apply elem_of_nil in H.
Defined.

Lemma X8_sync_source_missing_witness :
  syncSafari safariDb cachedDb 200 idleEngine cacheOnlyFs
  = (cacheOnlyFs, Throw "ENOENT").
Proof. apply X8_sync_source_missing. reflexivity. Defined.

End SyncSafariMoreWitnesses.

(** ** The paginated sweep: a failing page *)

Section PaginationFailure.
Import Sync.
Context {A : Type}.
Variable server : Server A.
Variable pages : nat → list A.

Local Open Scope nat_scope.

Lemma fetchLoop_throw (n : nat) :
  ∀ page all log fuel e,
    (∀ j, j < n → server (page + j) = Ok (pages (page + j))) →
    (∀ j, j < n → ¬ length (pages (page + j)) < 50) →
    server (page + n) = Throw e →
    n < fuel →
    fetchLoop server fuel page all log = Some (log ++ seq page (S n), Throw e).
Proof.
  induction n as [|n IH]; intros page all log fuel e Hok Hfull Hthrow Hfuel.
  - destruct fuel as [|fuel]; [lia|]. simpl.
    rewrite Nat.add_0_r in Hthrow. by rewrite Hthrow.
  - destruct fuel as [|fuel]; [lia|]. simpl.
    rewrite <- (Nat.add_0_r page) at 1. rewrite (Hok 0) by lia.
    pose proof (Hfull 0 ltac:(lia)) as H0. rewrite !Nat.add_0_r in *.
    rewrite bool_decide_eq_false_2 by lia.
    rewrite bool_decide_eq_false_2 by done.
    rewrite (IH (S page) _ _ fuel e).
    + by rewrite <- !app_assoc.
    + intros j Hj. replace (S page + j) with (page + S j) by lia. apply Hok. lia.
    + intros j Hj. replace (S page + j) with (page + S j) by lia. apply Hfull. lia.
    + by replace (S page + n) with (page + S n) by lia.
    + lia.
Qed.

(** X11: a page request that fails aborts the sweep. If the pages before
    page [j] were answered in full and the request for page [j] throws,
    the sweep throws that error: the items already collected are not
    returned and no page after [j] is requested. *)
Theorem X11_sweep_aborts (j fuel : nat) (e : string) :
  (∀ i, i < j → server i = Ok (pages i)) →
  (∀ i, i < j → ¬ length (pages i) < 50) →
  server j = Throw e →
  j < fuel →
  fetchAllRaindrops server fuel = Some (seq 0 (S j), Throw e).
Proof.
  intros Hok Hfull Hthrow Hfuel. unfold fetchAllRaindrops.
  by rewrite (fetchLoop_throw j 0 [] [] fuel e).
Qed.

End PaginationFailure.

Section PaginationFailureWitness.
Import Sync Fixtures.

Lemma X11_sweep_aborts_witness :
  fetchAllRaindrops failingServer 5 = Some (seq 0 2, Throw "API 500: down").
Proof.
  apply (X11_sweep_aborts failingServer threePages 1 5 "API 500: down").
  - intros i Hi. assert (i = 0%nat) as -> by lia. reflexivity.
  - intros i Hi. assert (i = 0%nat) as -> by lia. vm_compute. lia.
  - reflexivity.
  - lia.
Defined.

End PaginationFailureWitness.

(** ** Raindrop sync: all or nothing *)

Section RaindropSyncProps.
Import Raindrop RaindropView RaindropSync Fixtures.

Lemma omap_all_None {X Y} (f : X → option Y) (l : list X) :
  (∀ x, x ∈ l → f x = None) → omap f l = [].
Proof.
  intros Hf. apply elem_of_nil_inv. intros y Hy.
  apply list_elem_of_omap in Hy as (x & Hx & Hfx). by rewrite (Hf x Hx) in Hfx.
Qed.

Lemma fetchEverything_Ok api fuel order rs cs items :
  fetchEverything api fuel order = Some (Ok (rs, cs, items)) ↔
  api_root api = Ok rs ∧ api_children api = Ok cs ∧
  snd <$> Sync.fetchAllRaindrops (api_raindrops api) fuel = Some (Ok items).
Proof.
  unfold fetchEverything. split.
  - destruct (omap _ _) as [|e l] eqn:Herr; [|done].
    destruct (api_root api) as [rs'|]; [|done].
    destruct (api_children api) as [cs'|]; [|done].
    destruct (snd <$> _) as [[items'|]|]; [|done|done].
    by intros [= -> -> ->].
  - intros (Hr & Hc & Hs). rewrite Hr, Hc, Hs.
    rewrite omap_all_None; [done|]. by intros [] _.
Qed.

(** An error of the root or of the children request rejects the whole,
    whatever the sweep is doing. *)
Lemma fetchEverything_collections_fail api fuel order e :
  api_root api = Throw e ∨ api_children api = Throw e →
  ∃ e', fetchEverything api fuel order = Some (Throw e').
Proof.
  intros Hfail. unfold fetchEverything.
  destruct (omap _ _) as [|e' l] eqn:Herr; [exfalso|by exists e'].
  destruct Hfail as [Hr|Hc].
  - assert (e ∈ ([] : list string)) as Hin; [|by apply elem_of_nil in Hin].
    rewrite <- Herr. apply list_elem_of_omap. exists ReqRoot.
    split; [apply elem_of_app; right; left|]. by rewrite Hr.
  - assert (e ∈ ([] : list string)) as Hin; [|by apply elem_of_nil in Hin].
    rewrite <- Herr. apply list_elem_of_omap. exists ReqChildren.
    split; [apply elem_of_app; right; right; left|]. by rewrite Hc.
Qed.

(** X12: [syncRaindrop] is all or nothing. When it ends without error it
    has replaced the cache file by a document with the stamp of the clock,
    the root collections followed by the child collections, and the items
    of the sweep, all fetched under a non-empty bearer token; when it ends
    with an error, whichever step failed, the cache file is exactly what it
    was before. *)
Theorem X12_sync_raindrop_all_or_nothing
    config env api fuel order clock file file' r :
  syncRaindrop config env api fuel order clock file = Some (file', r) →
  (r = Ok tt ∧
   ∃ api_key token rs cs items,
     config = Ok api_key ∧ requireApiKey env api_key = Ok token ∧ token ≠ "" ∧
     api_root (api token) = Ok rs ∧ api_children (api token) = Ok cs ∧
     snd <$> Sync.fetchAllRaindrops (api_raindrops (api token)) fuel
       = Some (Ok items) ∧
     file' = Some (mkCacheFile clock (rs ++ cs) items)) ∨
  (∃ e, r = Throw e ∧ file' = file).
Proof.
  unfold syncRaindrop. intros H.
  destruct config as [api_key|e]; [|right; exists e; by injection H as <- <-].
  destruct (requireApiKey env api_key) as [token|e] eqn:Hkey;
    [|right; exists e; by injection H as <- <-].
  destruct (fetchEverything (api token) fuel order) as [[[[rs cs] items]|e]|] eqn:Hf;
    [|right; exists e; by injection H as <- <-|done].
  injection H as <- <-. left. split; [done|].
  apply fetchEverything_Ok in Hf as (Hr & Hc & Hs).
  exists api_key, token, rs, cs, items. split_and!; try done.
  unfold requireApiKey in Hkey. case_bool_decide; [done|]. by injection Hkey as <-.
Qed.

Lemma X12_sync_raindrop_all_or_nothing_witness :
  (Ok tt = Ok tt ∧
   ∃ api_key token rs cs items,
     Ok "$RAINDROP_TOKEN" = Ok api_key ∧
     requireApiKey tokenEnv api_key = Ok token ∧ token ≠ "" ∧
     api_root (smallService token) = Ok rs ∧
     api_children (smallService token) = Ok cs ∧
     snd <$> Sync.fetchAllRaindrops (api_raindrops (smallService token)) 1
       = Some (Ok items) ∧
     Some (mkCacheFile "2026-01-01T00:00:00.000Z" [devTools; frameworks] [react])
     = Some (mkCacheFile "2026-01-01T00:00:00.000Z" (rs ++ cs) items)) ∨
  (∃ e, Ok tt = Throw e ∧
        Some (mkCacheFile "2026-01-01T00:00:00.000Z" [devTools; frameworks] [react])
        = None).
Proof.
  apply (X12_sync_raindrop_all_or_nothing (Ok "$RAINDROP_TOKEN") tokenEnv smallService
           1 [] "2026-01-01T00:00:00.000Z" None).
  reflexivity.
Defined.

(** X13: the sweep and the sync compose. With a configured key that
    resolves to a non-empty token, both collection requests answered, and
    a sweep whose first page shorter than 50 is page [k], the sync ends
    without error, given room for [k + 1] turns, and writes the roots, then
    the children, then the items of pages 0 to [k] in order. *)
Theorem X13_sync_raindrop_succeeds
    api_key env api order clock file token rs cs (pages : nat → list Item) k fuel :
  requireApiKey env api_key = Ok token →
  api_root (api token) = Ok rs → api_children (api token) = Ok cs →
  (∀ j, j ≤ k → api_raindrops (api token) j = Ok (pages j))%nat →
  (∀ j, j < k → ¬ length (pages j) < 50)%nat →
  (length (pages k) < 50)%nat →
  (k < fuel)%nat →
  syncRaindrop (Ok api_key) env api fuel order clock file
  = Some (Some (mkCacheFile clock (rs ++ cs) (concat (pages <$> seq 0 (S k)))),
          Ok tt).
Proof.
  intros Hkey Hr Hc Hok Hfull Hshort Hfuel. unfold syncRaindrop. rewrite Hkey.
  assert (fetchEverything (api token) fuel order
          = Some (Ok (rs, cs, concat (pages <$> seq 0 (S k))))) as ->; [|done].
  apply fetchEverything_Ok. split_and!; [done|done|].
  unfold Sync.fetchAllRaindrops.
  by rewrite (fetchLoop_spec _ pages k 0%nat [] [] fuel).
Qed.

Lemma X13_sync_raindrop_succeeds_witness :
  syncRaindrop (Ok "$RAINDROP_TOKEN") tokenEnv smallService 1 []
    "2026-01-01T00:00:00.000Z" None
  = Some (Some (mkCacheFile "2026-01-01T00:00:00.000Z"
                  ([devTools] ++ [frameworks])
                  (concat ((λ _, [react]) <$> seq 0 1))),
          Ok tt).
Proof.
  apply (X13_sync_raindrop_succeeds "$RAINDROP_TOKEN" tokenEnv smallService []
           "2026-01-01T00:00:00.000Z" None "secret" [devTools] [frameworks]
           (λ _, [react]) 0 1).
  - reflexivity.
  - reflexivity.
  - reflexivity.
  - intros j Hj. reflexivity.
  - intros j Hj. lia.
  - simpl. lia.
  - lia.
Defined.

(** X14: a failed collections request fails the sync and keeps the old
    cache file, also while the sweep is still running or would never end:
    no bound on the sweep's turns is needed. *)
Theorem X14_sync_raindrop_collections_fail
    api_key env api fuel order clock file token e :
  requireApiKey env api_key = Ok token →
  api_root (api token) = Throw e ∨ api_children (api token) = Throw e →
  ∃ e', syncRaindrop (Ok api_key) env api fuel order clock file
        = Some (file, Throw e').
Proof.
  intros Hkey Hfail. unfold syncRaindrop. rewrite Hkey.
  destruct (fetchEverything_collections_fail (api token) fuel order e Hfail)
    as [e' ->].
  by exists e'.
Qed.

Lemma X14_sync_raindrop_collections_fail_witness :
  ∃ e', syncRaindrop (Ok "literal-key") ∅ endlessService 0 [ReqSweep; ReqRoot]
          "2026-01-01T00:00:00.000Z" None
        = Some (None, Throw e').
Proof.
  apply (X14_sync_raindrop_collections_fail "literal-key" ∅ endlessService 0
           [ReqSweep; ReqRoot] "2026-01-01T00:00:00.000Z" None "literal-key"
           "API 401: unauthorized").
  - reflexivity.
  - left. reflexivity.
Defined.

(** X15: after a sync, the reader lists the groups of root collections
    before the groups of child collections, each part in the order the
    service returned the collections. *)
Theorem X15_roots_before_children clock rs cs items :
  let cache := readCache (mkCacheFile clock (rs ++ cs) items) in
  let groupFor col :=
    match linkedItemsOf cache col with
    | [] => None
    | linked => Some (mkTabGroup (fullTitle (titleById (rs ++ cs)) col)
                                 (tabOfItem <$> linked))
    end in
  toTabGroups cache
  = [ mkProfile "Raindrop.io" (omap groupFor rs ++ omap groupFor cs) ].
Proof.
  intros cache groupFor. unfold toTabGroups. rewrite tabGroupsOf_omap.
  do 2 f_equal. unfold cache. simpl. rewrite omap_app.
  f_equal; apply list_omap_ext, Forall2_same_length_lookup; (split; [done|]);
    intros i x y Hx Hy; rewrite Hx in Hy; injection Hy as <-;
    apply (raindrop_groupOf_spec (mkCache (rs ++ cs) items)).
Qed.

End RaindropSyncProps.

(** ** describe-tabgroup *)

Section DescribeProps.
Import Describe Fixtures.

Lemma string_length_app (x s : string) :
  String.length (x +:+ s) = (String.length x + String.length s)%nat.
Proof. induction x as [|a x IH]; simpl; [done|]. by rewrite IH. Qed.

Lemma string_app_assoc (x y z : string) : (x +:+ y) +:+ z = x +:+ (y +:+ z).
Proof.
  induction x as [|a x IH]; [done|].
  change (String a ((x +:+ y) +:+ z) = String a (x +:+ (y +:+ z))).
  by rewrite IH.
Qed.

Lemma prepend_ne_self (a : ascii) (x s : string) : String a x +:+ s ≠ s.
Proof.
  intros H. apply (f_equal String.length) in H.
  rewrite string_length_app in H. simpl in H. lia.
Qed.

Lemma stripSuffix_unfold (suffix s : string) :
  stripSuffix suffix s
  = if bool_decide (s = suffix) then Some EmptyString
    else match s with
         | String a rest => String a <$> stripSuffix suffix rest
         | EmptyString => None
         end.
Proof. by destruct s. Qed.

Lemma stripSuffix_app (suffix x : string) :
  stripSuffix suffix (x +:+ suffix) = Some x.
Proof.
  induction x as [|a x IH]; rewrite stripSuffix_unfold.
  - simpl. by rewrite bool_decide_eq_true_2.
  - rewrite bool_decide_eq_false_2 by apply prepend_ne_self.
    simpl. by rewrite IH.
Qed.

Lemma stripSuffix_Some (suffix s x : string) :
  stripSuffix suffix s = Some x → s = x +:+ suffix.
Proof.
  revert x. induction s as [|a s IH]; intros x; rewrite stripSuffix_unfold.
  - case_bool_decide as H; [|done]. intros [= <-]. by rewrite <- H.
  - case_bool_decide as H; [intros [= <-]; by rewrite H|].
    destruct (stripSuffix suffix s) as [y|] eqn:Hy; [|done].
    intros [= <-]. simpl. by rewrite (IH y).
Qed.

(** X16: reading the model's answer. An answer wrapped in a json fence,
    with the line feeds after the opening and before the closing fence,
    is unwrapped to exactly its body, whatever the body holds. An answer
    in a bare fence keeps its opening fence, so only the closing one is
    removed; an answer that neither starts with the json fence nor ends
    with a fence is left as it is. *)
Theorem X16_strip_fences (body : string) :
  stripFences ("```json" +:+ LF +:+ body +:+ LF +:+ "```") = body ∧
  stripFences ("```" +:+ LF +:+ body +:+ LF +:+ "```") = "```" +:+ LF +:+ body ∧
  (stripPrefix "```jso" body = None → stripSuffix "```" body = None →
   stripFences body = body).
Proof.
  split_and!.
  - unfold stripFences, stripClosingFence.
    change (stripOpeningFence ("```json" +:+ LF +:+ body +:+ LF +:+ "```"))
      with (body +:+ (LF +:+ "```")).
    by rewrite stripSuffix_app.
  - unfold stripFences, stripClosingFence.
    change (stripOpeningFence ("```" +:+ LF +:+ body +:+ LF +:+ "```"))
      with (("```" +:+ LF +:+ body) +:+ (LF +:+ "```")).
    by rewrite stripSuffix_app.
  - intros Hopen Hclose. unfold stripFences, stripOpeningFence. rewrite Hopen.
    unfold stripClosingFence. rewrite Hclose.
    destruct (stripSuffix (LF +:+ "```") body) as [x|] eqn:Hx; [|done].
    apply stripSuffix_Some in Hx.
    assert (stripSuffix "```" body = Some (x +:+ LF)) as Hy.
    { rewrite Hx, <- string_app_assoc. apply stripSuffix_app. }
    by rewrite Hclose in Hy.
Qed.

Lemma X16_strip_fences_witness :
  stripFences "plain answer" = "plain answer".
Proof.
  destruct (X16_strip_fences "plain answer") as (_ & _ & Hplain).
  apply Hplain; reflexivity.
Defined.

Lemma endsWith_unfold (suffix s : string) :
  endsWith suffix s
  = if bool_decide (s = suffix) then true
    else match s with
         | String _ rest => endsWith suffix rest
         | EmptyString => false
         end.
Proof. by destruct s. Qed.

Lemma endsWith_spec (suffix s : string) :
  endsWith suffix s = true ↔ ∃ pre, s = pre +:+ suffix.
Proof.
  split.
  - induction s as [|a s IH]; rewrite endsWith_unfold.
    + case_bool_decide as H; [|done]. intros _. by exists EmptyString.
    + case_bool_decide as H; [intros _; by exists EmptyString|].
      intros Hs. destruct (IH Hs) as [pre ->]. by exists (String a pre).
  - intros [pre ->]. induction pre as [|a pre IH]; rewrite endsWith_unfold.
    + simpl. by rewrite bool_decide_eq_true_2.
    + case_bool_decide; [done|]. exact IH.
Qed.

(** X17: which group a name stands for. With both sources read and both
    holding a group of the requested name, describe takes the first such
    group of the source whose reader finished first: of Safari when the
    Safari task resumed first, of Raindrop otherwise. *)
Theorem X17_first_match_by_completion
    (n : string) flags safari raindrop (raindropFirst : bool) i gs j gr :
  n ≠ "" →
  Aggregator.wantSafari flags = Aggregator.wantRaindrop flags →
  Aggregator.exitCode safari = 0 → Aggregator.exitCode raindrop = 0 →
  list_find (λ g, Some (group_name g) = Some n)
            (allGroups (Aggregator.stdout_profiles safari)) = Some (i, gs) →
  list_find (λ g, Some (group_name g) = Some n)
            (allGroups (Aggregator.stdout_profiles raindrop)) = Some (j, gr) →
  targetGroups false (Some n) flags safari raindrop raindropFirst
  = inr [if raindropFirst then gr else gs].
Proof.
  intros Hn Hboth Hs Hr Hfs Hfr. unfold targetGroups.
  assert (truthy_str (Some n) = true) as ->
    by (simpl; by rewrite bool_decide_eq_false_2).
  simpl negb. cbv iota. rewrite foldl_sourceTask. simpl.
  assert (Aggregator.tasks (Aggregator.defaultSources flags) safari raindrop raindropFirst
          = if raindropFirst then [raindrop; safari] else [safari; raindrop]) as ->.
  { unfold Aggregator.tasks, Aggregator.defaultSources.
    destruct flags as [[] []]; simpl in *; try done; by destruct raindropFirst. }
  assert (Aggregator.sourcesRequested (Aggregator.defaultSources flags) = 2%nat) as ->.
  { unfold Aggregator.sourcesRequested, Aggregator.defaultSources.
    by destruct flags as [[] []]. }
  assert (Aggregator.contribution safari = Aggregator.stdout_profiles safari) as Hcs.
  { unfold Aggregator.contribution. by rewrite bool_decide_eq_false_2 by (by intros ?). }
  assert (Aggregator.contribution raindrop = Aggregator.stdout_profiles raindrop) as Hcr.
  { unfold Aggregator.contribution. by rewrite bool_decide_eq_false_2 by (by intros ?). }
  assert (Aggregator.failed safari → False) as Hfs' by (by intros ?).
  assert (Aggregator.failed raindrop → False) as Hfr' by (by intros ?).
  destruct raindropFirst; simpl;
    rewrite !filter_cons_False by done; simpl;
    rewrite Hcs, Hcr, app_nil_r; unfold allGroups in *; rewrite bind_app.
  - by rewrite (list_find_app_l _ _ _ _ _ Hfr).
  - by rewrite (list_find_app_l _ _ _ _ _ Hfs).
Qed.

Lemma X17_first_match_by_completion_witness :
  targetGroups false (Some "Research") (Aggregator.mkFlags false false)
    safariOk raindropResearch true
  = inr [mkTabGroup "Research" [mkTab "Paper" "https://arxiv.example"]].
Proof.
  apply (X17_first_match_by_completion "Research" (Aggregator.mkFlags false false)
           safariOk raindropResearch true 0%nat
           (mkTabGroup "Research" [mkTab "Example" "https://example.com"]) 0%nat
           (mkTabGroup "Research" [mkTab "Paper" "https://arxiv.example"]));
    try reflexivity.
  discriminate.
Defined.

(** X18: the pages fetched for a group. For a limit of at least 0, the
    tabs whose pages are fetched are exactly the first [limit] eligible
    tabs of the group in the group's order, all of them when there are no
    more than [limit]: as many as the smaller of the limit and the number
    of eligible tabs. A tab is eligible when its url has a host name that
    is not on the skip list and does not end in ".ts.net"; every fetched
    tab is eligible, every eligible tab is fetched when the limit allows
    it, and a limit of 0 fetches nothing. *)
Theorem X18_pages_fetched hostname skip_domains (limit : Z) (g : TabGroup) :
  0 ≤ limit →
  let fetched := toFetch hostname skip_domains limit g in
  let eligible := filter (eligibleTab hostname skip_domains) (group_tabs g) in
  fetched = take (Z.to_nat limit) eligible ∧
  length fetched = (Z.to_nat limit `min` length eligible)%nat ∧
  fetched `prefix_of` eligible ∧
  fetched `sublist_of` group_tabs g ∧
  (length fetched ≤ Z.to_nat limit)%nat ∧
  (∀ t, t ∈ fetched →
     ∃ host, hostname (tab_url t) = Some host ∧ (host ∉ skip_domains) ∧
             ¬ ∃ pre, host = pre +:+ ".ts.net") ∧
  ((length eligible ≤ Z.to_nat limit)%nat →
   ∀ t host, t ∈ group_tabs g → hostname (tab_url t) = Some host →
             host ∉ skip_domains → (¬ ∃ pre, host = pre +:+ ".ts.net") →
             t ∈ fetched) ∧
  (limit = 0 → fetched = []).
Proof.
  intros Hlimit fetched eligible. unfold fetched, eligible, toFetch, sliceTo.
  rewrite bool_decide_eq_false_2 by lia. split_and!.
  - done.
  - apply length_take.
  - apply prefix_take.
  - etrans; [apply sublist_take|]. apply sublist_filter.
  - rewrite length_take. lia.
  - intros t Ht. apply elem_of_take in Ht as (k & Ht & _).
    apply list_elem_of_lookup_2, list_elem_of_filter in Ht as [Hel _].
    unfold eligibleTab in Hel. destruct (hostname (tab_url t)) as [host|]; [|done].
    destruct Hel as [Hskip Hts]. exists host. split_and!; [done|done|].
    intros Hex. apply endsWith_spec in Hex. by rewrite Hex in Hts.
  - intros Hall t host Ht Hhost Hskip Hts.
    rewrite take_ge by done. apply list_elem_of_filter. split; [|done].
    unfold eligibleTab. rewrite Hhost. split; [done|].
    destruct (endsWith ".ts.net" host) eqn:He; [|done].
    exfalso. apply Hts. by apply endsWith_spec.
  - intros ->. done.
Qed.

(** The demo group has three tabs: the host of the first is on the skip
    list, the host of the second ends in ".ts.net", and the page of the
    third is the one fetched. *)
Lemma X18_pages_fetched_witness :
  toFetch demoHostname ["mail.example"] 1 demoGroup
  = [ mkTab "Docs" "https://docs.example/guide" ].
Proof.
  destruct (X18_pages_fetched demoHostname ["mail.example"] 1 demoGroup)
    as (Heq & _); [lia|].
  rewrite Heq. vm_compute. reflexivity.
Defined.

End DescribeProps.

(** ** Command lines *)

Section CliProps.
Import Cli Fixtures.

Lemma has_cons flag a argv :
  has flag (a :: argv) = bool_decide (flag = a) || has flag argv.
Proof.
  unfold has. apply eq_true_iff_eq.
  rewrite orb_true_iff, !bool_decide_eq_true. apply elem_of_cons.
Qed.

Lemma listLoop_known st argv :
  (∀ a, a ∈ argv → isFlagLike a = true → a ∈ listFlags) →
  listLoop st argv
  = Args {| la_verbose := la_verbose st || has "--verbose" argv || has "--debug" argv;
            la_debug := la_debug st || has "--debug" argv;
            la_json := la_json st || has "--json" argv;
            la_safari := la_safari st || has "--safari" argv;
            la_raindrop := la_raindrop st || has "--raindrop" argv |}.
Proof.
  revert st. induction argv as [|arg rest IH]; intros st Hknown.
  - simpl. unfold has. destruct st as [[] [] [] [] []]; reflexivity.
  - assert (∀ a, a ∈ rest → isFlagLike a = true → a ∈ listFlags) as Hrest.
    { intros a Ha. apply Hknown. by right. }
    specialize (Hknown arg ltac:(left)).
    simpl. unfold listArg. rewrite !(has_cons _ arg).
    repeat (case_bool_decide;
            [subst arg; rewrite (IH _ Hrest); simpl;
             destruct st as [[] [] [] [] []]; simpl;
             repeat (destruct (has _ rest)); reflexivity|]).
    destruct (isFlagLike arg) eqn:Hflag.
    + exfalso. specialize (Hknown eq_refl). unfold listFlags in Hknown.
      repeat (apply elem_of_cons in Hknown as [?|Hknown]; [congruence|]).
      by apply elem_of_nil in Hknown.
    + rewrite (IH _ Hrest).
      rewrite !(bool_decide_eq_false_2 (_ = arg)) by (by intros <-). done.
Qed.

Lemma listArg_unknown st bad :
  isFlagLike bad = true → bad ∉ listFlags → listArg st bad = inl bad.
Proof.
  intros Hflag Hbad. unfold listArg, listFlags in *.
  repeat (case_bool_decide;
          [subst bad; exfalso; apply Hbad, (bool_decide_unpack _); by vm_compute|]).
  by rewrite Hflag.
Qed.

Lemma listArg_known st a :
  (isFlagLike a = true → a ∈ listFlags) → ∃ st', listArg st a = inr st'.
Proof.
  intros Hknown. unfold listArg.
  repeat (case_bool_decide; [by eexists|]).
  destruct (isFlagLike a); [|by eexists].
  exfalso. specialize (Hknown eq_refl). unfold listFlags in Hknown.
  repeat (apply elem_of_cons in Hknown as [?|Hknown]; [congruence|]).
  by apply elem_of_nil in Hknown.
Qed.

Lemma listLoop_unknown st pre bad rest :
  (∀ a, a ∈ pre → isFlagLike a = true → a ∈ listFlags) →
  isFlagLike bad = true → bad ∉ listFlags →
  listLoop st (pre ++ bad :: rest) = UnknownFlag bad.
Proof.
  revert st. induction pre as [|a pre IH]; intros st Hpre Hflag Hbad; simpl.
  - by rewrite listArg_unknown.
  - destruct (listArg_known st a) as [st' ->]; [apply Hpre; left|].
    apply IH; [|done|done]. intros b Hb. apply Hpre. by right.
Qed.

(** X19: the command line of list-tabgroups, without --help and -h. If
    every word that starts with a dash is one of the five flags, the
    parsed switches say which flags occur, whatever their order and number
    of repetitions, other words being ignored: --debug also switches
    verbose on, and a source is included when its flag occurs or the other
    source's flag does not. Otherwise the command stops at the first word
    that starts with a dash and is not a flag. *)
Theorem X19_list_command_line argv :
  "--help" ∉ argv → "-h" ∉ argv →
  ((∀ a, a ∈ argv → isFlagLike a = true → a ∈ listFlags) →
   parseListArgs argv
   = Args {| la_verbose := has "--verbose" argv || has "--debug" argv;
             la_debug := has "--debug" argv;
             la_json := has "--json" argv;
             la_safari := has "--safari" argv || negb (has "--raindrop" argv);
             la_raindrop := has "--raindrop" argv || negb (has "--safari" argv) |}) ∧
  (∀ pre bad rest,
     argv = pre ++ bad :: rest →
     (∀ a, a ∈ pre → isFlagLike a = true → a ∈ listFlags) →
     isFlagLike bad = true → bad ∉ listFlags →
     parseListArgs argv = UnknownFlag bad).
Proof.
  intros Hhelp Hh. unfold parseListArgs.
  rewrite bool_decide_eq_false_2 by (intros [?|?]; done). split.
  - intros Hknown. rewrite (listLoop_known _ _ Hknown). simpl.
    destruct (has "--safari" argv), (has "--raindrop" argv); reflexivity.
  - intros pre bad rest -> Hpre Hflag Hbad.
    by rewrite (listLoop_unknown _ _ _ _ Hpre Hflag Hbad).
Qed.

Lemma X19_list_command_line_witness :
  parseListArgs ["--raindrop"; "notes"; "--debug"; "--raindrop"]
  = Args (mkListArgs true true false false true).
Proof.
  destruct (X19_list_command_line ["--raindrop"; "notes"; "--debug"; "--raindrop"])
    as [Hknown _].
  - apply (bool_decide_unpack _). by vm_compute.
  - apply (bool_decide_unpack _). by vm_compute.
  - apply Hknown. intros a Ha Hflag. unfold listFlags.
    repeat (apply elem_of_cons in Ha as [->|Ha];
            [first [discriminate Hflag | apply (bool_decide_unpack _); by vm_compute]|]).
    by apply elem_of_nil in Ha.
Defined.

Lemma fetchLoop_inv (n : nat) :
  ∀ argv st a,
    (length argv ≤ n)%nat → fetchInv st → fetchLoop st argv = Args a → fetchInv a.
Proof.
  induction n as [|n IH]; intros argv st a Hlen Hinv Hrun.
  - destruct argv; [|simpl in Hlen; lia]. simpl in Hrun. by injection Hrun as <-.
  - destruct argv as [|arg rest]; [simpl in Hrun; by injection Hrun as <-|].
    simpl in Hlen, Hrun. destruct Hinv as (Hp & Hpos & Hd).
    case_bool_decide.
    { revert Hrun. apply IH; [lia|]. by split_and!. }
    case_bool_decide.
    { revert Hrun. apply IH; [lia|]. by split_and!. }
    case_bool_decide.
    { destruct rest as [|value rest']; [done|]. case_bool_decide; [done|].
      simpl in Hlen. revert Hrun. apply IH; [lia|].
      split_and!; [|done|done]. simpl. by intros v [= <-]. }
    destruct (isFlagLike arg) eqn:Hflag; [done|].
    revert Hrun. apply IH; [lia|].
    split_and!; [done| |done]. simpl. apply Forall_app. split; [done|].
    by constructor.
Qed.

(** X20: the command line of fetch-tabgroup. Whenever it is accepted,
    there is a url, and neither it nor any other positional word starts
    with a dash; the prompt, if one was given, is not the empty string;
    and debug never comes without verbose. *)
Theorem X20_fetch_command_line argv a :
  parseFetchArgs argv = Args a →
  (∃ url more, fa_positional a = url :: more) ∧
  Forall (λ w, isFlagLike w = false) (fa_positional a) ∧
  (∀ v, fa_prompt a = Some v → v ≠ "") ∧
  (fa_debug a = true → fa_verbose a = true).
Proof.
  unfold parseFetchArgs. case_bool_decide; [done|].
  destruct (fetchLoop _ argv) as [| | | |st] eqn:Hloop; try done.
  case_bool_decide as Hlen; [done|]. intros [= <-].
  assert (fetchInv st) as (Hp & Hpos & Hd).
  { apply (fetchLoop_inv (length argv) argv (mkFetchArgs [] false false None) st);
      [done| |done].
    split_and!; [done|constructor|done]. }
  split_and!; try done.
  destruct (fa_positional st) as [|url more]; [simpl in Hlen; lia|by eexists _, _].
Qed.

Lemma X20_fetch_command_line_witness :
  (∃ url more, ["https://example.com"] = url :: more) ∧
  Forall (λ w, isFlagLike w = false) ["https://example.com"] ∧
  (∀ v, Some "--verbose" = Some v → v ≠ "") ∧
  (true = true → true = true).
Proof.
  apply (X20_fetch_command_line
           ["--prompt"; "--verbose"; "https://example.com"; "--debug"]
           (mkFetchArgs ["https://example.com"] true true (Some "--verbose"))).
  reflexivity.
Defined.

End CliProps.
